(** * Sickw IMEI report tool: extraction, classification, bulk search, export

    A shallow embedding of the pure core of [src/index.tsx]:
    [parseSickwHtml], [generateExportText] and the [handleBulkSearch]
    handler of the [App] component, together with the string built-ins
    and regular expressions they call.

    Strings.  A JavaScript string is modelled as the list of its
    characters, [list ascii]: the model covers strings whose code units
    lie in the 8-bit range.  The character classes used by the code
    ([\d], [\b], [[^>]], the separators of the query splitter) are ASCII
    classes; [trim] removes the white space of that range (TAB, LF, VT,
    FF, CR, SPACE, NBSP).  [toLowerCase] maps A-Z and the capitals
    U+00C0-U+00DE (but the multiplication sign) to their small letters,
    which stay in the range.  [toUpperCase] does not stay in it: it maps
    a-z and U+00E0-U+00FE (but the division sign) to their capitals,
    U+00DF to the two letters SS, U+00B5 to U+039C and U+00FF to U+0178;
    its result is therefore a [ustring], a list of UTF-16 code units. *)

From Stdlib Require Import Ascii String DecimalString DecimalNat.
From Stdlib Require Import List Arith ZArith Lia Bool Permutation Sorted.
Import ListNotations.
Local Open Scope list_scope.

Definition jsstring := list ascii.

(** A string whose code units may lie outside the 8-bit range: the list
    of its UTF-16 code units. *)
Definition ustring := list N.

(** String literals of the source. *)
Definition lit (s : string) : jsstring := list_ascii_of_string s.

(** ** String built-ins *)

Module JS.

Fixpoint str_eqb (a b : jsstring) : bool :=
  match a, b with
  | [], [] => true
  | x :: a', y :: b' => Ascii.eqb x y && str_eqb a' b'
  | _, _ => false
  end.

(** [s.startsWith(p)] *)
Fixpoint startsWith (p s : jsstring) : bool :=
  match p, s with
  | [], _ => true
  | _ :: _, [] => false
  | a :: p', b :: s' => Ascii.eqb a b && startsWith p' s'
  end.

(** Offset of the first occurrence of [p] in [s]. *)
Fixpoint find (p s : jsstring) {struct s} : option nat :=
  if startsWith p s then Some 0
  else match s with
       | [] => None
       | _ :: s' => option_map S (find p s')
       end.

(** [s.indexOf(p, from)]; [None] stands for [-1]. *)
Definition indexOf (p s : jsstring) (from : nat) : option nat :=
  let k := Nat.min from (length s) in
  option_map (Nat.add k) (find p (skipn k s)).

(** [s.includes(p)] *)
Definition includes (p s : jsstring) : bool :=
  match find p s with Some _ => true | None => false end.

(** [s.substring(a, b)]: both ends clamped to the length, swapped when
    out of order. *)
Definition substring (s : jsstring) (a b : nat) : jsstring :=
  let a' := Nat.min a (length s) in
  let b' := Nat.min b (length s) in
  let lo := Nat.min a' b' in
  let hi := Nat.max a' b' in
  firstn (hi - lo) (skipn lo s).

Definition code (c : ascii) : nat := nat_of_ascii c.

Definition is_digit (c : ascii) : bool := (48 <=? code c) && (code c <=? 57).
Definition is_upper (c : ascii) : bool := (65 <=? code c) && (code c <=? 90).
Definition is_lower (c : ascii) : bool := (97 <=? code c) && (code c <=? 122).

(** The class [\w], which decides where [\b] holds. *)
Definition is_word (c : ascii) : bool :=
  is_digit c || is_upper c || is_lower c || (code c =? 95).

(** White space removed by [trim]. *)
Definition is_space (c : ascii) : bool :=
  ((9 <=? code c) && (code c <=? 13)) || (code c =? 32) || (code c =? 160).

(** The capitals U+00C0-U+00DE, without the multiplication sign U+00D7,
    and the small letters U+00E0-U+00FE, without the division sign
    U+00F7. *)
Definition is_upper_latin1 (c : ascii) : bool :=
  (192 <=? code c) && (code c <=? 222) && negb (code c =? 215).
Definition is_lower_latin1 (c : ascii) : bool :=
  (224 <=? code c) && (code c <=? 254) && negb (code c =? 247).

(** The lower case of one character. *)
Definition lower_char (c : ascii) : ascii :=
  if is_upper c || is_upper_latin1 c then ascii_of_nat (code c + 32) else c.

(** The upper case of one character, as code units: one unit, but two
    for U+00DF (sharp s, [SS]); U+00B5 (micro sign) and U+00FF (y with
    diaeresis) have their capitals at U+039C and U+0178. *)
Definition upper_units (c : ascii) : ustring :=
  if is_lower c || is_lower_latin1 c then [N.of_nat (code c - 32)]
  else if code c =? 223 then [83%N; 83%N]
  else if code c =? 181 then [924%N]
  else if code c =? 255 then [376%N]
  else [N.of_nat (code c)].

(** [s.toLowerCase()] *)
Definition toLowerCase (s : jsstring) : jsstring := map lower_char s.

(** [s.toUpperCase()] *)
Definition toUpperCase (s : jsstring) : ustring := flat_map upper_units s.

(** The code units of a string of the 8-bit range. *)
Definition units (s : jsstring) : ustring := map (fun c => N.of_nat (code c)) s.

(** [a === b] on strings of code units. *)
Fixpoint ustr_eqb (a b : ustring) : bool :=
  match a, b with
  | [], [] => true
  | x :: a', y :: b' => N.eqb x y && ustr_eqb a' b'
  | _, _ => false
  end.

(** A code unit that is one of the letters a-z. *)
Definition is_lower_unit (u : N) : bool := ((97 <=? u) && (u <=? 122))%N.

Fixpoint dropWhile (f : ascii -> bool) (s : jsstring) : jsstring :=
  match s with
  | [] => []
  | c :: s' => if f c then dropWhile f s' else s
  end.

(** [s.trim()] *)
Definition trim (s : jsstring) : jsstring :=
  rev (dropWhile is_space (rev (dropWhile is_space s))).

(** [s.replace(/pat/g, rep)] for a non-empty literal [pat]: the leftmost
    occurrences, not overlapping, are replaced in one pass.  [skip]
    counts the characters of a match still to be consumed. *)
Fixpoint replaceAll_go (pat rep : jsstring) (skip : nat) (s : jsstring) : jsstring :=
  match s with
  | [] => []
  | c :: s' =>
      match skip with
      | S k => replaceAll_go pat rep k s'
      | O => if startsWith pat s
             then rep ++ replaceAll_go pat rep (length pat - 1) s'
             else c :: replaceAll_go pat rep 0 s'
      end
  end.

Definition replaceAll (pat rep s : jsstring) : jsstring := replaceAll_go pat rep 0 s.

(** [s.split(sep)] for a non-empty literal [sep].  [cur] is the piece
    being read, reversed. *)
Fixpoint split_go (sep : jsstring) (skip : nat) (cur : jsstring) (s : jsstring)
  : list jsstring :=
  match s with
  | [] => [rev cur]
  | c :: s' =>
      match skip with
      | S k => split_go sep k cur s'
      | O => if startsWith sep s
             then rev cur :: split_go sep (length sep - 1) [] s'
             else split_go sep 0 (c :: cur) s'
      end
  end.

Definition split (sep s : jsstring) : list jsstring := split_go sep 0 [] s.

(** [arr.join(sep)] *)
Fixpoint join (sep : jsstring) (l : list jsstring) : jsstring :=
  match l with
  | [] => []
  | [x] => x
  | x :: rest => x ++ sep ++ join sep rest
  end.

(** Decimal rendering of a loop index inside a template literal. *)
Definition show_nat (n : nat) : jsstring :=
  lit (NilEmpty.string_of_uint (Nat.to_uint n)).

End JS.

(** ** Regular expressions of the source *)

Module Re.
Import JS.

(** [/^(\d{15})/]: the capture, when the first fifteen characters are
    decimal digits. *)
Definition imei_prefix (chunk : jsstring) : option jsstring :=
  let d := firstn 15 chunk in
  if (length d =? 15) && forallb is_digit d then Some d else None.

(** [/<pre>([\s\S]*?)<\/pre>/]: the capture.  The leftmost match starts
    at the first [<pre>], and the lazy body stops at the first [</pre>]
    after it. *)
Definition pre_block (chunk : jsstring) : option jsstring :=
  match find (lit "<pre>") chunk with
  | None => None
  | Some p =>
      let rest := skipn (p + 5) chunk in
      match find (lit "</pre>") rest with
      | None => None
      | Some q => Some (firstn q rest)
      end
  end.

(** Length of a match of [[^>]+>] at the head of [s], if any. *)
Fixpoint tag_tail (s : jsstring) : option nat :=
  match s with
  | [] => None
  | c :: s' =>
      if Ascii.eqb c ">" then None
      else match s' with
           | [] => None
           | c' :: _ =>
               if Ascii.eqb c' ">" then Some 2
               else option_map S (tag_tail s')
           end
  end.

(** [s.replace(/<[^>]+>/g, '')] *)
Fixpoint strip_tags_go (skip : nat) (s : jsstring) : jsstring :=
  match s with
  | [] => []
  | c :: s' =>
      match skip with
      | S k => strip_tags_go k s'
      | O => if Ascii.eqb c "<"
             then match tag_tail s' with
                  | Some n => strip_tags_go n s'
                  | None => c :: strip_tags_go 0 s'
                  end
             else c :: strip_tags_go 0 s'
      end
  end.

Definition strip_tags (s : jsstring) : jsstring := strip_tags_go 0 s.

(** [(19|20)\d{2}\b] matched at the head of [s]. *)
Definition year_here (s : jsstring) : bool :=
  match s with
  | a :: b :: c :: d :: rest =>
      ((Ascii.eqb a "1" && Ascii.eqb b "9") || (Ascii.eqb a "2" && Ascii.eqb b "0"))
      && is_digit c && is_digit d
      && match rest with
         | [] => true
         | e :: _ => negb (is_word e)
         end
  | _ => false
  end.

(** [/\b(19|20)\d{2}\b/.test(s)]: [prev] tells whether the character
    before the current position is a word character. *)
Fixpoint year_scan (prev : bool) (s : jsstring) : bool :=
  match s with
  | [] => false
  | c :: s' => (negb prev && year_here s) || year_scan (is_word c) s'
  end.

Definition test_year (s : jsstring) : bool := year_scan false s.

(** The separator class [[\n, \t]] of the query splitter. *)
Definition is_sep (c : ascii) : bool :=
  (code c =? 10) || (code c =? 44) || (code c =? 32) || (code c =? 9).

(** [s.split(/[\n, \t]+/)]: [in_sep] holds inside a run of separators. *)
Fixpoint split_seps_go (cur : jsstring) (in_sep : bool) (s : jsstring) : list jsstring :=
  match s with
  | [] => [rev cur]
  | c :: s' =>
      if is_sep c
      then if in_sep then split_seps_go cur true s'
           else rev cur :: split_seps_go [] true s'
      else split_seps_go (c :: cur) false s'
  end.

Definition split_seps (s : jsstring) : list jsstring := split_seps_go [] false s.

End Re.

Import JS Re.

(** ** Data model *)

(** The union type of [Device['group']]. *)
Inductive Group : Type :=
| Unlocked
| ATT
| TMobileSprint
| Verizon
| Other.

Definition group_eqb (a b : Group) : bool :=
  match a, b with
  | Unlocked, Unlocked | ATT, ATT | TMobileSprint, TMobileSprint
  | Verizon, Verizon | Other, Other => true
  | _, _ => false
  end.

(** [interface Device]; a field declared with [?] may be [undefined].
    [icloudLock] receives the result of [toUpperCase], a string of code
    units. *)
Record Device : Type := mkDevice {
  id : jsstring;
  imei : jsstring;
  imei2 : option jsstring;
  modelDesc : jsstring;
  serial : option jsstring;
  warrantyStatus : option jsstring;
  icloudLock : option ustring;
  carrier : option jsstring;
  simLock : option jsstring;
  estPurchaseDate : option jsstring;
  activationStatus : option jsstring;
  rawText : jsstring;
  group : Group;
  isActive : bool
}.

Definition nl : jsstring := [ascii_of_nat 10].

(** A string used as a condition: the empty string is falsy. *)
Definition truthy (s : jsstring) : bool :=
  match s with [] => false | _ :: _ => true end.

(** ** parseSickwHtml *)

(** The closure [getValue] of the loop body, with the [preContent] it
    captures as first argument. *)
Definition getValue (preContent key : jsstring) : jsstring :=
  let searchKey := key ++ lit ":" in
  match indexOf searchKey preContent 0 with
  | None => []
  | Some idx =>
      let start := idx + length searchKey in
      let end1 := indexOf (lit "<br") preContent start in
      let end2 := match end1 with
                  | Some e => Some e
                  | None => indexOf nl preContent start
                  end in
      let end3 := match end2 with
                  | Some e => e
                  | None => length preContent
                  end in
      let rawValue := substring preContent start end3 in
      let cleanValue :=
        trim (replaceAll (lit "&nbsp;") (lit " ") (strip_tags rawValue)) in
      cleanValue
  end.

(** Lines 87-99: the carrier group of a device. *)
Definition derive_group (carrierRaw simLock : jsstring) : Group :=
  let c := toLowerCase carrierRaw in
  let s := toLowerCase simLock in
  if includes (lit "unlocked") s || includes (lit "unlock") c
     || includes (lit "open policy") c
  then Unlocked
  else if includes (lit "t-mobile") c || includes (lit "sprint") c
  then TMobileSprint
  else if includes (lit "at&t") c
  then ATT
  else if includes (lit "verizon") c
  then Verizon
  else Other.

(** Lines 101-117: the activation flag of a device. *)
Definition derive_isActive (activationStatus estPurchaseDate : jsstring) : bool :=
  if truthy activationStatus then
    if includes (lit "not activated") (toLowerCase activationStatus)
    then false
    else true
  else
    if truthy estPurchaseDate then
      let lowerDate := toLowerCase estPurchaseDate in
      if includes (lit "not activated") lowerDate then false
      else if test_year estPurchaseDate then true
      else false
    else false.

(** One iteration of the loop at index [i]: [None] is a [continue]. *)
Definition parse_chunk (i : nat) (chunk : jsstring) : option Device :=
  match imei_prefix chunk with
  | None => None
  | Some imei =>
      match pre_block chunk with
      | None => None
      | Some preContent =>
          let modelDesc := getValue preContent (lit "Model Description") in
          let imei2 := getValue preContent (lit "IMEI2") in
          let serial := getValue preContent (lit "Serial Number") in
          let warrantyStatus := getValue preContent (lit "Warranty Status") in
          let icloudLock := getValue preContent (lit "iCloud Lock") in
          let carrierRaw := getValue preContent (lit "Locked Carrier") in
          let simLock := getValue preContent (lit "Sim-Lock Status") in
          let estPurchaseDate := getValue preContent (lit "Estimated Purchase Date") in
          let activationStatus := getValue preContent (lit "Activation Status") in
          Some {| id := imei ++ lit "-" ++ show_nat i;
                  imei := imei;
                  imei2 := Some imei2;
                  modelDesc := modelDesc;
                  serial := Some serial;
                  warrantyStatus := Some warrantyStatus;
                  icloudLock := Some (toUpperCase icloudLock);
                  carrier := Some carrierRaw;
                  simLock := Some simLock;
                  estPurchaseDate := Some estPurchaseDate;
                  activationStatus := Some activationStatus;
                  rawText := preContent;
                  group := derive_group carrierRaw simLock;
                  isActive := derive_isActive activationStatus estPurchaseDate |}
      end
  end.

(** The [for] loop over [chunks[i]], [chunks[i+1]], ... *)
Fixpoint parse_loop (i : nat) (chunks : list jsstring) : list Device :=
  match chunks with
  | [] => []
  | chunk :: rest =>
      match parse_chunk i chunk with
      | Some d => d :: parse_loop (S i) rest
      | None => parse_loop (S i) rest
      end
  end.

Definition imei_marker : jsstring := lit "<b>IMEI: </b>".

Definition parseSickwHtml (html : jsstring) : list Device :=
  let chunks := split imei_marker html in
  parse_loop 1 (tl chunks).

(** ** generateExportText *)

Definition cleanModel (name : jsstring) : jsstring :=
  trim (replaceAll (lit "-USA") [] name).

Definition separator : jsstring := lit "===============================".

Definition format_entry (d : Device) : jsstring :=
  cleanModel (modelDesc d) ++ nl ++ imei d ++ nl ++ separator.

Definition formatList (devs : list Device) : jsstring :=
  join nl (map format_entry devs).

(** [d.icloudLock === 'ON'] *)
Definition icloud_on (d : Device) : bool :=
  match icloudLock d with
  | Some s => ustr_eqb s (units (lit "ON"))
  | None => false
  end.

Definition is_icloud (d : Device) : bool := icloud_on d.
Definition is_tmobileNonActive (d : Device) : bool :=
  negb (icloud_on d) && group_eqb (group d) TMobileSprint && negb (isActive d).
Definition is_tmobileActive (d : Device) : bool :=
  negb (icloud_on d) && group_eqb (group d) TMobileSprint && isActive d.
Definition is_lockedOtherNonActive (d : Device) : bool :=
  negb (icloud_on d) && negb (group_eqb (group d) TMobileSprint)
  && negb (group_eqb (group d) Unlocked) && negb (isActive d).
Definition is_lockedOtherActive (d : Device) : bool :=
  negb (icloud_on d) && negb (group_eqb (group d) TMobileSprint)
  && negb (group_eqb (group d) Unlocked) && isActive d.
Definition is_unlockedNonActive (d : Device) : bool :=
  negb (icloud_on d) && group_eqb (group d) Unlocked && negb (isActive d).
Definition is_unlockedActive (d : Device) : bool :=
  negb (icloud_on d) && group_eqb (group d) Unlocked && isActive d.

(** The seven filter predicates, in the order the function applies them. *)
Definition bucket_preds : list (Device -> bool) :=
  [ is_icloud; is_tmobileNonActive; is_tmobileActive; is_lockedOtherNonActive;
    is_lockedOtherActive; is_unlockedNonActive; is_unlockedActive ].

(** The text written before the entries of each bucket. *)
Definition hdr_icloud : jsstring := lit "*ICLOUD*" ++ nl ++ nl.
Definition hdr_tmobileNonActive : jsstring :=
  lit "locked and non active tmoblie with network phone are like this with the device detetils,"
  ++ nl ++ nl ++ lit "*LOCKED N NON ACTIVE T-MOBILE*" ++ nl ++ nl.
Definition hdr_tmobileActive : jsstring :=
  lit "*LOCKED N ACTIVE T-MOBILE*" ++ nl ++ nl.
Definition hdr_lockedOtherNonActive : jsstring :=
  lit "locked and non active other network phone are like this with the device detetils,"
  ++ nl ++ nl ++ lit "*LOCKED N NON ACTIVE*" ++ nl ++ nl.
Definition hdr_lockedOtherActive : jsstring :=
  lit "*LOCKED N ACTIVE*" ++ nl ++ nl.
Definition hdr_unlockedNonActive : jsstring :=
  lit "unlocked and non active phone are like this with the device detetils,"
  ++ nl ++ nl ++ lit "UNLOCKED N NON ACTIVE" ++ nl ++ nl.
Definition hdr_unlockedActive : jsstring :=
  lit "unlocked and active phone like this device detetils,"
  ++ nl ++ nl ++ lit "UNLOCKED N ACTIVE" ++ nl ++ nl.

Definition bucket_headers : list jsstring :=
  [ hdr_icloud; hdr_tmobileNonActive; hdr_tmobileActive; hdr_lockedOtherNonActive;
    hdr_lockedOtherActive; hdr_unlockedNonActive; hdr_unlockedActive ].

(** [if (bucket.length > 0) output += header + formatList(bucket) + "\n\n"] *)
Definition emit (header : jsstring) (bucket : list Device) (output : jsstring) : jsstring :=
  if 0 <? length bucket
  then output ++ header ++ formatList bucket ++ nl ++ nl
  else output.

Definition generateExportText (devices : list Device) : jsstring :=
  let output := [] in
  let icloud := filter is_icloud devices in
  let output := emit hdr_icloud icloud output in
  let tmobileNonActive := filter is_tmobileNonActive devices in
  let output := emit hdr_tmobileNonActive tmobileNonActive output in
  let tmobileActive := filter is_tmobileActive devices in
  let output := emit hdr_tmobileActive tmobileActive output in
  let lockedOtherNonActive := filter is_lockedOtherNonActive devices in
  let output := emit hdr_lockedOtherNonActive lockedOtherNonActive output in
  let lockedOtherActive := filter is_lockedOtherActive devices in
  let output := emit hdr_lockedOtherActive lockedOtherActive output in
  let unlockedNonActive := filter is_unlockedNonActive devices in
  let output := emit hdr_unlockedNonActive unlockedNonActive output in
  let unlockedActive := filter is_unlockedActive devices in
  let output := emit hdr_unlockedActive unlockedActive output in
  trim output.

(** ** handleBulkSearch *)

(** The part of the [App] state the handler reads and writes. *)
Record AppState : Type := mkState {
  devices : list Device;
  bulkQuery : jsstring;
  searchResults : option (list Device);
  notFoundQueries : list jsstring;
  icloudAlertDevices : list Device
}.

(** [Map<string, Device>]: entries in insertion order. *)
Definition DeviceMap := list (jsstring * Device).

(** [m.set(k, v)]: a present key keeps its position and takes the new
    value, a new key is appended. *)
Fixpoint map_set (k : jsstring) (v : Device) (m : DeviceMap) : DeviceMap :=
  match m with
  | [] => [(k, v)]
  | (k', v') :: m' =>
      if str_eqb k' k then (k', v) :: m' else (k', v') :: map_set k v m'
  end.

(** [Array.from(m.values())] *)
Definition map_values (m : DeviceMap) : list Device := map snd m.

(** [Array.from(new Set(l))]: first occurrences, in order. *)
Definition set_add (acc : list jsstring) (x : jsstring) : list jsstring :=
  if existsb (str_eqb x) acc then acc else acc ++ [x].

Definition uniq (l : list jsstring) : list jsstring := fold_left set_add l [].

(** [rawQueries] then [uniqueQueries] of the handler. *)
Definition rawQueries (q : jsstring) : list jsstring :=
  filter truthy (map trim (split_seps q)).

Definition uniqueQueries (q : jsstring) : list jsstring := uniq (rawQueries q).

(** [d.imei.includes(q) || (d.serial && d.serial.includes(q))] *)
Definition matches (q : jsstring) (d : Device) : bool :=
  includes q (imei d)
  || match serial d with
     | Some s => truthy s && includes q s
     | None => false
     end.

(** The body of [uniqueQueries.forEach]. *)
Definition search_step (devs : list Device) (acc : DeviceMap * list jsstring)
           (q : jsstring) : DeviceMap * list jsstring :=
  let '(foundDevicesMap, missing) := acc in
  let matched := filter (matches q) devs in
  if 0 <? length matched
  then (fold_left (fun m d => map_set (id d) d m) matched foundDevicesMap, missing)
  else (foundDevicesMap, missing ++ [q]).

Definition handleBulkSearch (st : AppState) : AppState :=
  if negb (truthy (trim (bulkQuery st))) then
    {| devices := devices st; bulkQuery := bulkQuery st;
       searchResults := None; notFoundQueries := []; icloudAlertDevices := [] |}
  else
    let '(foundDevicesMap, missing) :=
      fold_left (search_step (devices st)) (uniqueQueries (bulkQuery st)) ([], []) in
    let results := map_values foundDevicesMap in
    let locked := filter icloud_on results in
    {| devices := devices st; bulkQuery := bulkQuery st;
       searchResults := Some results;
       notFoundQueries := missing;
       icloudAlertDevices :=
         if 0 <? length locked then locked else icloudAlertDevices st |}.

(** ** getCleanDeviceDetails *)

(** Length of a match of [/<br\s*\/?>/i] at the head of [s], if any: the
    three characters of the tag name, a run of white space, an optional
    slash and the closing bracket. *)
Definition br_match (s : jsstring) : option nat :=
  match s with
  | a :: b :: c :: rest =>
      if Ascii.eqb a "<" && Ascii.eqb (lower_char b) "b" && Ascii.eqb (lower_char c) "r"
      then
        let rest1 := dropWhile is_space rest in
        let spaces := length rest - length rest1 in
        match rest1 with
        | x :: rest2 =>
            if Ascii.eqb x ">" then Some (3 + spaces + 1)
            else if Ascii.eqb x "/"
            then match rest2 with
                 | y :: _ => if Ascii.eqb y ">" then Some (3 + spaces + 2) else None
                 | [] => None
                 end
            else None
        | [] => None
        end
      else None
  | _ => None
  end.

(** [s.replace(/<br\s*\/?>/gi, '\n')] *)
Fixpoint replace_br_go (skip : nat) (s : jsstring) : jsstring :=
  match s with
  | [] => []
  | c :: s' =>
      match skip with
      | S k => replace_br_go k s'
      | O => match br_match s with
             | Some n => nl ++ replace_br_go (n - 1) s'
             | None => c :: replace_br_go 0 s'
             end
      end
  end.

Definition getCleanDeviceDetails (rawHtml : jsstring) : jsstring :=
  trim (replaceAll (lit "&nbsp;") (lit " ") (strip_tags (replace_br_go 0 rawHtml))).

(** ** Derived views of the Registry: [stats], [groups], [copyGroup] *)

Record Stats : Type := mkStats {
  total : Z;
  activeCount : Z;
  inactiveCount : Z
}.

(** The [stats] memo. *)
Definition stats (devs : list Device) : Stats :=
  let total := Z.of_nat (length devs) in
  let activeCount := Z.of_nat (length (filter isActive devs)) in
  let inactiveCount := (total - activeCount)%Z in
  {| total := total; activeCount := activeCount; inactiveCount := inactiveCount |}.

(** The string a [Device['group']] value is. *)
Definition group_name (g : Group) : jsstring :=
  match g with
  | Unlocked => lit "Unlocked"
  | ATT => lit "AT&T"
  | TMobileSprint => lit "T-Mobile/Sprint"
  | Verizon => lit "Verizon"
  | Other => lit "Other"
  end.

(** [interface CarrierGroup] *)
Module CarrierGroup.
Record t : Type := mk {
  name : jsstring;
  devices : list Device;
  count : nat
}.
End CarrierGroup.

(** [Record<string, Device[]>]: the keys with their arrays. *)
Definition GMap := list (jsstring * list Device).

(** [gMap[k]] *)
Fixpoint gmap_get (k : jsstring) (m : GMap) : option (list Device) :=
  match m with
  | [] => None
  | (k', l) :: m' => if str_eqb k' k then Some l else gmap_get k m'
  end.

(** [gMap[k].push(d)], after [gMap[k] = []] when the key is missing. *)
Fixpoint gmap_push (k : jsstring) (d : Device) (m : GMap) : GMap :=
  match m with
  | [] => [(k, [d])]
  | (k', l) :: m' =>
      if str_eqb k' k then (k', l ++ [d]) :: m' else (k', l) :: gmap_push k d m'
  end.

Definition gmap_init : GMap :=
  [ (lit "Unlocked", []); (lit "T-Mobile/Sprint", []); (lit "AT&T", []);
    (lit "Verizon", []); (lit "Other", []) ].

(** The body of [devices.forEach] in the [groups] memo. *)
Definition group_step (gMap : GMap) (d : Device) : GMap :=
  match gmap_get (group_name (group d)) gMap with
  | Some _ => gmap_push (group_name (group d)) d gMap
  | None => gmap_push (lit "Other") d gMap
  end.

Definition sortOrder : list jsstring :=
  [ lit "Unlocked"; lit "T-Mobile/Sprint"; lit "AT&T"; lit "Verizon"; lit "Other" ].

(** The [groups] memo. *)
Definition groups (devs : list Device) : list CarrierGroup.t :=
  let gMap := fold_left group_step devs gmap_init in
  let entry (name : jsstring) :=
    let l := match gmap_get name gMap with Some l => l | None => [] end in
    CarrierGroup.mk name l (length l) in
  filter (fun g => 0 <? CarrierGroup.count g) (map entry sortOrder).

(** The text [copyGroup] hands to the clipboard. *)
Definition copyGroup (devs : list Device) (groupName : jsstring) : jsstring :=
  let groupDevices := filter (fun d => str_eqb (group_name (group d)) groupName) devs in
  join nl (map (fun d => modelDesc d ++ lit " " ++ imei d) groupDevices).

(** ** The other handlers of [App] *)

Inductive View : Type :=
| upload
| dashboard.

(** [interface FailedImage], over the type of the browser's [File]. *)
Module FailedImage.
Record t (File : Type) : Type := mk {
  id : jsstring;
  file : File;
  previewUrl : jsstring;
  suggestedImei : option jsstring
}.
Arguments mk {File} _ _ _ _.
Arguments id {File} _.
Arguments file {File} _.
Arguments previewUrl {File} _.
Arguments suggestedImei {File} _.
End FailedImage.

(** The state of [App] beside [AppState]. *)
Record UiState (File : Type) : Type := mkUi {
  view : View;
  exportText : jsstring;
  showExportModal : bool;
  manualFixQueue : list (FailedImage.t File);
  isProcessingImages : bool
}.
Arguments mkUi {File} _ _ _ _ _.
Arguments view {File} _.
Arguments exportText {File} _.
Arguments showExportModal {File} _.
Arguments manualFixQueue {File} _.
Arguments isProcessingImages {File} _.

(** What the environment supplies for one file of an image batch: the
    reply of the vision model ([None] when the [try] block throws,
    [Some None] when the reply carries no text), and the id and preview
    URL given to the image if it is queued. *)
Record Scan (File : Type) : Type := mkScan {
  scan_file : File;
  scan_reply : option (option jsstring);
  scan_id : jsstring;
  scan_url : jsstring
}.
Arguments mkScan {File} _ _ _ _.
Arguments scan_file {File} _.
Arguments scan_reply {File} _.
Arguments scan_id {File} _.
Arguments scan_url {File} _.

Section Handlers.

Variable File : Type.

Definition App : Type := (AppState * UiState File)%type.

Definition handleUpload (parsedDevices : list Device) (app : App) : App :=
  let '(st, ui) := app in
  ({| devices := parsedDevices; bulkQuery := bulkQuery st;
      searchResults := searchResults st; notFoundQueries := notFoundQueries st;
      icloudAlertDevices := icloudAlertDevices st |},
   mkUi dashboard (exportText ui) (showExportModal ui) (manualFixQueue ui)
        (isProcessingImages ui)).

(** [prev ? prev + '\n' : ''] followed by the text to add. *)
Definition append_query (prev added : jsstring) : jsstring :=
  (if truthy prev then prev ++ nl else []) ++ added.

Definition set_bulkQuery (q : jsstring) (st : AppState) : AppState :=
  {| devices := devices st; bulkQuery := q;
     searchResults := searchResults st; notFoundQueries := notFoundQueries st;
     icloudAlertDevices := icloudAlertDevices st |}.

Definition set_queue (q : list (FailedImage.t File)) (ui : UiState File) : UiState File :=
  mkUi (view ui) (exportText ui) (showExportModal ui) q (isProcessingImages ui).

Definition handleManualFix (imei : jsstring) (app : App) : App :=
  let '(st, ui) := app in
  (set_bulkQuery (append_query (bulkQuery st) imei) st,
   set_queue (tl (manualFixQueue ui)) ui).

Definition handleSkipFix (app : App) : App :=
  let '(st, ui) := app in
  (st, set_queue (tl (manualFixQueue ui)) ui).

Definition clearSearch (st : AppState) : AppState :=
  {| devices := devices st; bulkQuery := [];
     searchResults := None; notFoundQueries := []; icloudAlertDevices := [] |}.

(** [searchResults || devices]: an array, even empty, is truthy. *)
Definition handleExport (app : App) : App :=
  let '(st, ui) := app in
  let text := generateExportText
                (match searchResults st with
                 | Some results => results
                 | None => devices st
                 end) in
  (st, mkUi (view ui) text true (manualFixQueue ui) (isProcessingImages ui)).

(** One iteration of the loop of [handleImageUpload] over the files. *)
Definition scan_step (devs : list Device)
           (acc : list jsstring * list (FailedImage.t File)) (sc : Scan File)
  : list jsstring * list (FailedImage.t File) :=
  let '(newImeis, failed) := acc in
  match scan_reply sc with
  | Some reply =>
      let text := match reply with
                  | Some t => if truthy (trim t) then trim t else lit "FAILED"
                  | None => lit "FAILED"
                  end in
      let cleanText := filter is_digit text in
      if length cleanText =? 15 then
        let existsInHtml := existsb (fun d => str_eqb (imei d) cleanText) devs in
        if existsInHtml then (newImeis ++ [cleanText], failed)
        else (newImeis,
              failed ++ [FailedImage.mk (scan_id sc) (scan_file sc) (scan_url sc)
                                        (Some cleanText)])
      else (newImeis,
            failed ++ [FailedImage.mk (scan_id sc) (scan_file sc) (scan_url sc) None])
  | None =>
      (newImeis,
       failed ++ [FailedImage.mk (scan_id sc) (scan_file sc) (scan_url sc) None])
  end.

(** [handleImageUpload], run to its end with no other handler in
    between, on the files of the event and what the environment answers
    for each. *)
Definition handleImageUpload (scans : list (Scan File)) (app : App) : App :=
  let '(st, ui) := app in
  match scans with
  | [] => app
  | _ :: _ =>
      let '(newImeis, failed) := fold_left (scan_step (devices st)) scans ([], []) in
      let st' := if 0 <? length newImeis
                 then set_bulkQuery (append_query (bulkQuery st) (join nl newImeis)) st
                 else st in
      let queue := if 0 <? length failed
                   then manualFixQueue ui ++ failed
                   else manualFixQueue ui in
      (st', mkUi (view ui) (exportText ui) (showExportModal ui) queue false)
  end.

End Handlers.

Arguments handleUpload {File} _ _.
Arguments handleManualFix {File} _ _.
Arguments handleSkipFix {File} _.
Arguments handleExport {File} _.
Arguments scan_step {File} _ _ _.
Arguments handleImageUpload {File} _ _.

(** ** Sample inputs *)

Definition sample_pre1 : jsstring :=
  lit "Model Description: IPHONE 11 64GB-USA<br>Serial Number: AAA111<br>iCloud Lock: <font color=red>on</font><br>Locked Carrier: US T-Mobile Locked Policy<br>Sim-Lock Status: Locked<br>Activation Status: Not Activated<br>".

Definition sample_pre3 : jsstring :=
  lit "Model Description: IPHONE 12&nbsp;PRO<br>iCloud Lock: Lost<br>Locked Carrier: AT&T<br>Sim-Lock Status: Unlocked<br>Estimated Purchase Date: 2021-03-01<br>".

(** Three segments: the second has a short digit run, the third has
    sixteen digits. *)
Definition sample_chunk3 : jsstring :=
  lit "3333333333333339<pre>" ++ sample_pre3 ++ lit "</pre>".

Definition sample_html : jsstring :=
  lit "<html>" ++ imei_marker ++ lit "111111111111111<pre>" ++ sample_pre1 ++ lit "</pre>"
  ++ imei_marker ++ lit "2222<pre>Model Description: X<br></pre>"
  ++ imei_marker ++ sample_chunk3.

Definition sample_d1 : Device :=
  {| id := lit "111111111111111-1";
     imei := lit "111111111111111";
     imei2 := Some [];
     modelDesc := lit "IPHONE 11 64GB-USA";
     serial := Some (lit "AAA111");
     warrantyStatus := Some [];
     icloudLock := Some (units (lit "ON"));
     carrier := Some (lit "US T-Mobile Locked Policy");
     simLock := Some (lit "Locked");
     estPurchaseDate := Some [];
     activationStatus := Some (lit "Not Activated");
     rawText := sample_pre1;
     group := TMobileSprint;
     isActive := false |}.

Definition sample_d3 : Device :=
  {| id := lit "333333333333333-3";
     imei := lit "333333333333333";
     imei2 := Some [];
     modelDesc := lit "IPHONE 12 PRO";
     serial := Some [];
     warrantyStatus := Some [];
     icloudLock := Some (units (lit "LOST"));
     carrier := Some (lit "AT&T");
     simLock := Some (lit "Unlocked");
     estPurchaseDate := Some (lit "2021-03-01");
     activationStatus := Some [];
     rawText := sample_pre3;
     group := Unlocked;
     isActive := true |}.

(** * Specification vocabulary *)

(** [p] occurs in [s] at offset [n]. *)
Definition occurs_at (p s : jsstring) (n : nat) : Prop :=
  exists l1 l2, s = l1 ++ p ++ l2 /\ length l1 = n.

Definition occurs (p s : jsstring) : Prop := exists n, occurs_at p s n.

(** [t] contains [p] up to letter case ([p] is a lower-case literal). *)
Definition contains_ci (p t : jsstring) : Prop :=
  exists l1 u l2, t = l1 ++ u ++ l2 /\ toLowerCase u = p.

Definition all_digits (s : jsstring) : Prop := Forall (fun c => is_digit c = true) s.

(** A segment that begins with fifteen decimal digits. *)
Definition starts_with_15_digits (chunk : jsstring) : Prop :=
  exists im rest, chunk = im ++ rest /\ length im = 15 /\ all_digits im.

(** A segment that holds a preformatted block. *)
Definition has_pre_block (chunk : jsstring) : Prop :=
  exists a pre b, chunk = a ++ lit "<pre>" ++ pre ++ lit "</pre>" ++ b.

(** Number of decimal digits at the head of a segment. *)
Fixpoint leading_digits (s : jsstring) : nat :=
  match s with
  | [] => 0
  | c :: s' => if is_digit c then S (leading_digits s') else 0
  end.

(** Four digits that read 19xx or 20xx. *)
Definition year_token (y : jsstring) : Prop :=
  exists c d, (y = lit "19" ++ [c; d] \/ y = lit "20" ++ [c; d])
              /\ is_digit c = true /\ is_digit d = true.

(** Is the last character of [pre] a word character?  [prev] answers for
    the empty prefix. *)
Fixpoint last_word (prev : bool) (pre : jsstring) : bool :=
  match pre with
  | [] => prev
  | c :: pre' => last_word (is_word c) pre'
  end.

Definition boundary_after (post : jsstring) : Prop :=
  match post with
  | [] => True
  | e :: _ => is_word e = false
  end.

(** [s] contains a year 19xx or 20xx standing as a word of its own: no
    letter, digit or underscore touches it on either side. *)
Definition has_year (s : jsstring) : Prop :=
  exists pre y post,
    s = pre ++ y ++ post /\ year_token y
    /\ last_word false pre = false /\ boundary_after post.

(** The ordered rules of the carrier group, on the sim-lock text [s] and
    the carrier text [c]. *)
Definition group_rule (s c : jsstring) (g : Group) : Prop :=
  let unlocked := contains_ci (lit "unlocked") s \/ contains_ci (lit "unlock") c
                  \/ contains_ci (lit "open policy") c in
  let tmobile := contains_ci (lit "t-mobile") c \/ contains_ci (lit "sprint") c in
  let att := contains_ci (lit "at&t") c in
  let verizon := contains_ci (lit "verizon") c in
  (unlocked -> g = Unlocked)
  /\ (~ unlocked -> tmobile -> g = TMobileSprint)
  /\ (~ unlocked -> ~ tmobile -> att -> g = ATT)
  /\ (~ unlocked -> ~ tmobile -> ~ att -> verizon -> g = Verizon)
  /\ (~ unlocked -> ~ tmobile -> ~ att -> ~ verizon -> g = Other).

(** The rules of the activation flag, on the activation status [a] and
    the estimated purchase date [e]. *)
Definition isActive_rule (a e : jsstring) (b : bool) : Prop :=
  (a <> [] -> (b = false <-> contains_ci (lit "not activated") a)
              /\ (b = true <-> ~ contains_ci (lit "not activated") a))
  /\ (a = [] ->
      (contains_ci (lit "not activated") e -> b = false)
      /\ (~ contains_ci (lit "not activated") e -> has_year e -> b = true)
      /\ (~ contains_ci (lit "not activated") e -> ~ has_year e -> b = false)
      /\ (e = [] -> b = false)).

(** The cleaning applied to the raw span of a field: tags stripped, the
    non-breaking-space entity decoded, the result trimmed. *)
Definition clean_value (raw : jsstring) : jsstring :=
  trim (replaceAll (lit "&nbsp;") (lit " ") (strip_tags raw)).

Definition newline : ascii := ascii_of_nat 10.

(** The seven lists [generateExportText] filters out of its input. *)
Definition buckets (devices : list Device) : list (list Device) :=
  map (fun p => filter p devices) bucket_preds.

(** The header of each bucket without the blank line that ends it. *)
Definition bucket_titles : list jsstring :=
  [ lit "*ICLOUD*";
    lit "locked and non active tmoblie with network phone are like this with the device detetils,"
    ++ nl ++ nl ++ lit "*LOCKED N NON ACTIVE T-MOBILE*";
    lit "*LOCKED N ACTIVE T-MOBILE*";
    lit "locked and non active other network phone are like this with the device detetils,"
    ++ nl ++ nl ++ lit "*LOCKED N NON ACTIVE*";
    lit "*LOCKED N ACTIVE*";
    lit "unlocked and non active phone are like this with the device detetils,"
    ++ nl ++ nl ++ lit "UNLOCKED N NON ACTIVE";
    lit "unlocked and active phone like this device detetils,"
    ++ nl ++ nl ++ lit "UNLOCKED N ACTIVE" ].

(** The layout of the export, with the text [gap] put between the
    separator line of one device and the model line of the next: a
    section per non-empty bucket, made of the title, a blank line and the
    entries; sections joined by a blank line.  An entry is the cleaned
    model description, the IMEI and a line of 31 [=]. *)
Definition layout_entry (d : Device) : jsstring :=
  cleanModel (modelDesc d) ++ nl ++ imei d ++ nl ++ repeat "="%char 31.

Definition layout_section (gap : jsstring) (title : jsstring) (bucket : list Device)
  : list jsstring :=
  match bucket with
  | [] => []
  | _ :: _ => [title ++ nl ++ nl ++ join gap (map layout_entry bucket)]
  end.

Definition export_layout (gap : jsstring) (devices : list Device) : jsstring :=
  join (nl ++ nl)
       (concat (map (fun tb => layout_section gap (fst tb) (snd tb))
                    (combine bucket_titles (buckets devices)))).

(** Strings that begin, respectively end, with a character [trim] keeps. *)
Definition starts_ns (s : jsstring) : Prop :=
  match s with
  | [] => False
  | a :: _ => is_space a = false
  end.

Definition ends_ns (s : jsstring) : Prop := starts_ns (rev s).

(** A token matches a device when it occurs in the device's IMEI or in
    its serial number. *)
Definition matches_spec (q : jsstring) (d : Device) : Prop :=
  occurs q (imei d) \/ exists s, serial d = Some s /\ occurs q s.

(** All matches of the tokens, token by token, each token's matches in
    Registry order. *)
Definition all_matches (devs : list Device) (tokens : list jsstring) : list Device :=
  flat_map (fun q => filter (matches q) devs) tokens.

(** First occurrences by [id]; [seen] lists the ids already taken. *)
Fixpoint dedup_ids (seen : list jsstring) (l : list Device) : list Device :=
  match l with
  | [] => []
  | d :: l' =>
      if existsb (str_eqb (id d)) seen then dedup_ids seen l'
      else d :: dedup_ids (seen ++ [id d]) l'
  end.

Definition insert_all (m : DeviceMap) (l : list Device) : DeviceMap :=
  fold_left (fun m d => map_set (id d) d m) l m.

(** A markup tag: what [/<[^>]+>/] matches. *)
Definition is_tag (t : jsstring) : Prop :=
  exists body, t = "<"%char :: body ++ [">"%char] /\ body <> [] /\ ~ In ">"%char body.

(** [s] holds no markup tag. *)
Definition tag_free (s : jsstring) : Prop :=
  forall l1 t l2, is_tag t -> s <> l1 ++ t ++ l2.

(** The same, decided: no opening bracket starts a tag. *)
Fixpoint no_tag (s : jsstring) : bool :=
  match s with
  | [] => true
  | c :: s' =>
      (if Ascii.eqb c "<"
       then match tag_tail s' with Some _ => false | None => true end
       else true)
      && no_tag s'
  end.

(** [s] is empty or begins and ends with a character [trim] keeps. *)
Definition trimmed (s : jsstring) : Prop :=
  s = [] \/ (starts_ns s /\ ends_ns s).

(** The groups in the order of [sortOrder]. *)
Definition group_order : list Group := [Unlocked; TMobileSprint; ATT; Verizon; Other].

(** The devices of one carrier group, in Registry order. *)
Definition devices_of (g : Group) (devs : list Device) : list Device :=
  filter (fun d => group_eqb (group d) g) devs.

(** The map of the [groups] memo when group [g] holds [f g]. *)
Definition gmap_of (f : Group -> list Device) : GMap :=
  map (fun g => (group_name g, f g)) group_order.

(** An IMEI accepted from an image: fifteen digits that are the IMEI of
    a device of the Registry. *)
Definition accepted_imei (devs : list Device) (q : jsstring) : Prop :=
  length q = 15 /\ all_digits q /\ exists d, In d devs /\ imei d = q.

(** An image queued for a manual fix: when it carries a suggestion, the
    suggestion is fifteen digits that are the IMEI of no device. *)
Definition queued_image {File : Type} (devs : list Device) (fi : FailedImage.t File)
  : Prop :=
  match FailedImage.suggestedImei fi with
  | Some q => length q = 15 /\ all_digits q /\ ~ exists d, In d devs /\ imei d = q
  | None => True
  end.

(** The tokens of a list of pieces: trimmed, the empty ones dropped. *)
Definition toks (pieces : list jsstring) : list jsstring :=
  filter truthy (map trim pieces).

(** Every entry of the result map is filed under the id of its device. *)
Definition well_keyed (m : DeviceMap) : Prop := forall k v, In (k, v) m -> k = id v.

(** The digits of the reply for one file of an image batch; none when
    the [try] block throws or the reply carries no text. *)
Definition reply_digits {File : Type} (sc : Scan File) : jsstring :=
  match scan_reply sc with
  | Some (Some t) => filter is_digit t
  | _ => []
  end.

(** The reply for a file is accepted: its digits are fifteen and they
    are the IMEI of a device of the Registry. *)
Definition reply_accepted {File : Type} (devs : list Device) (sc : Scan File) : bool :=
  (length (reply_digits sc) =? 15)
  && existsb (fun d => str_eqb (imei d) (reply_digits sc)) devs.

(** The queue entry of a file whose reply is not accepted: the file
    with the id and preview URL it was given, and the digits of the reply
    as suggestion when they are fifteen. *)
Definition queue_entry {File : Type} (sc : Scan File) : FailedImage.t File :=
  FailedImage.mk (scan_id sc) (scan_file sc) (scan_url sc)
                 (if length (reply_digits sc) =? 15
                  then Some (reply_digits sc) else None).

(** ** Further sample inputs *)

(** A second iCloud-locked device, with a model name to clean. *)
Definition sample_locked2 : Device :=
  {| id := lit "444444444444444-2";
     imei := lit "444444444444444";
     imei2 := Some [];
     modelDesc := lit "IPHONE 13-USA ";
     serial := Some (lit "BBB222");
     warrantyStatus := Some [];
     icloudLock := Some (units (lit "ON"));
     carrier := Some (lit "Unlocked");
     simLock := Some (lit "Unlocked");
     estPurchaseDate := Some [];
     activationStatus := Some (lit "Activated");
     rawText := [];
     group := Unlocked;
     isActive := true |}.

(** A search state: the Registry of the sample report, queried for its
    second device first. *)
Definition sample_search : AppState :=
  {| devices := [sample_d1; sample_d3];
     bulkQuery := lit "3333 1111";
     searchResults := None;
     notFoundQueries := [];
     icloudAlertDevices := [] |}.

(** * Tests of the embedding *)

Example clean_details_ex :
  getCleanDeviceDetails
    (lit "Model: <b>X</b><BR />IMEI:&nbsp;1<br>Sold<br  >")
  = lit "Model: X" ++ nl ++ lit "IMEI: 1" ++ nl ++ lit "Sold".
Proof. reflexivity. Qed.

Example groups_ex :
  map (fun cg => (CarrierGroup.name cg, CarrierGroup.count cg))
      (groups [sample_d1; sample_d3; sample_locked2])
  = [(lit "Unlocked", 2); (lit "T-Mobile/Sprint", 1)].
Proof. reflexivity. Qed.

Example image_batch_ex :
  let app :=
    handleImageUpload
      [ mkScan tt (Some (Some (lit "IMEI 111111111111111"))) (lit "a") (lit "blob:a");
        mkScan tt (Some (Some (lit "999999999999999"))) (lit "b") (lit "blob:b");
        mkScan tt (Some (Some (lit "FAILED"))) (lit "c") (lit "blob:c");
        mkScan tt None (lit "d") (lit "blob:d") ]
      ({| devices := [sample_d1; sample_d3]; bulkQuery := lit "3333";
          searchResults := None; notFoundQueries := []; icloudAlertDevices := [] |},
       mkUi upload [] false [] true) in
  bulkQuery (fst app) = lit "3333" ++ nl ++ lit "111111111111111"
  /\ map FailedImage.suggestedImei (manualFixQueue (snd app))
     = [Some (lit "999999999999999"); None; None]
  /\ isProcessingImages (snd app) = false.
Proof. repeat split; reflexivity. Qed.

(** Upper-casing "ete on" with the two e acute, a sharp s, the micro sign
    and y with diaeresis; lower-casing capital e acute and the
    multiplication sign. *)
Example case_ex :
  toUpperCase [ascii_of_nat 233; "t"; ascii_of_nat 233; " "; "o"; "n"]%char
  = [201; 84; 201; 32; 79; 78]%N
  /\ toUpperCase [ascii_of_nat 223; ascii_of_nat 181; ascii_of_nat 255; ascii_of_nat 247]
     = [83; 83; 924; 376; 247]%N
  /\ toLowerCase [ascii_of_nat 201; ascii_of_nat 215; "Q"%char]
     = [ascii_of_nat 233; ascii_of_nat 215; "q"%char].
Proof. repeat split; reflexivity. Qed.

(** Two accepted replies keep the order of the files. *)
Example image_order_ex :
  bulkQuery
    (fst (handleImageUpload
            [ mkScan tt (Some (Some (lit "333333333333333"))) (lit "a") (lit "blob:a");
              mkScan tt (Some None) (lit "b") (lit "blob:b");
              mkScan tt (Some (Some (lit " 1111-1111-1111-111 "))) (lit "c") (lit "blob:c") ]
            ({| devices := [sample_d1; sample_d3]; bulkQuery := [];
                searchResults := None; notFoundQueries := [];
                icloudAlertDevices := [] |},
             mkUi upload [] false [] false)))
  = lit "333333333333333" ++ nl ++ lit "111111111111111".
Proof. reflexivity. Qed.

Example split_ex :
  split (lit "ab") (lit "xabyabab") = [lit "x"; lit "y"; lit ""; lit ""].
Proof. reflexivity. Qed.

Example strip_ex :
  strip_tags (lit "a<b>c</b><>d<e") = lit "ac<>d<e".
Proof. reflexivity. Qed.

Example split_seps_ex :
  split_seps (lit ",a, b") = [lit ""; lit "a"; lit "b"].
Proof. reflexivity. Qed.

Example year_ex :
  (test_year (lit "on 2021-03-01"), test_year (lit "SN12021"), test_year (lit "20215"))
  = (true, false, false).
Proof. reflexivity. Qed.

Example sample_parse : parseSickwHtml sample_html = [sample_d1; sample_d3].
Proof. vm_compute. reflexivity. Qed.

(** * Properties of the string built-ins *)

Section StringFacts.

Lemma str_eqb_eq (a b : jsstring) : str_eqb a b = true <-> a = b.
Proof.
  revert b; induction a as [|x a IH]; intros [|y b]; simpl; split; intro H;
    try reflexivity; try discriminate.
  - apply andb_true_iff in H as [Hx Hab].
    apply Ascii.eqb_eq in Hx. apply IH in Hab. now subst.
  - injection H as -> ->. rewrite Ascii.eqb_refl. simpl. now apply IH.
Qed.

Lemma str_eqb_refl (a : jsstring) : str_eqb a a = true.
Proof. now apply str_eqb_eq. Qed.

Lemma str_eqb_neq (a b : jsstring) : str_eqb a b = false <-> a <> b.
Proof.
  split.
  - intros H E. apply str_eqb_eq in E. congruence.
  - intro H. destruct (str_eqb a b) eqn:E; [|reflexivity].
    apply str_eqb_eq in E. contradiction.
Qed.

Lemma startsWith_spec (p s : jsstring) :
  startsWith p s = true <-> exists t, s = p ++ t.
Proof.
  revert s; induction p as [|a p IH]; intros s; simpl.
  - split; [intros _; now exists s | reflexivity].
  - destruct s as [|b s].
    + split; [discriminate | intros [t Ht]; discriminate].
    + rewrite andb_true_iff, Ascii.eqb_eq, IH. split.
      * intros [-> [t ->]]. now exists t.
      * intros [t Ht]. injection Ht as -> ->. split; [reflexivity | now exists t].
Qed.

Lemma startsWith_app (p t : jsstring) : startsWith p (p ++ t) = true.
Proof. apply startsWith_spec. now exists t. Qed.

Lemma occurs_at_0 (p s : jsstring) : occurs_at p s 0 <-> startsWith p s = true.
Proof.
  rewrite startsWith_spec. split.
  - intros (l1 & l2 & -> & Hl). destruct l1; [|discriminate]. now exists l2.
  - intros [t ->]. now exists [], t.
Qed.

Lemma occurs_at_S (p : jsstring) (c : ascii) (s : jsstring) (n : nat) :
  occurs_at p (c :: s) (S n) <-> occurs_at p s n.
Proof.
  split.
  - intros (l1 & l2 & E & Hl). destruct l1 as [|x l1]; [discriminate|].
    simpl in E. injection E as -> ->. exists l1, l2. split; [reflexivity|].
    simpl in Hl. lia.
  - intros (l1 & l2 & -> & Hl). exists (c :: l1), l2. simpl. split; [reflexivity | lia].
Qed.

Lemma occurs_at_nil_inv (p : jsstring) (n : nat) : occurs_at p [] n -> n = 0.
Proof.
  intros (l1 & l2 & E & Hl). destruct l1; [now subst | discriminate].
Qed.

Lemma find_sound (p s : jsstring) (n : nat) :
  find p s = Some n ->
  occurs_at p s n /\ forall m, occurs_at p s m -> n <= m.
Proof.
  revert n; induction s as [|c s IH]; intros n; simpl.
  - destruct (startsWith p []) eqn:E; [|discriminate].
    intros [= <-]. split; [now apply occurs_at_0 | intros; lia].
  - destruct (startsWith p (c :: s)) eqn:E.
    + intros [= <-]. split; [now apply occurs_at_0 | intros; lia].
    + destruct (find p s) as [k|]; [|discriminate]. simpl. intros [= <-].
      destruct (IH k eq_refl) as [Hk Hmin]. split; [now apply occurs_at_S|].
      intros [|m] Hm; [apply occurs_at_0 in Hm; congruence|].
      apply occurs_at_S, Hmin in Hm. lia.
Qed.

Lemma find_None (p s : jsstring) :
  find p s = None -> forall m, ~ occurs_at p s m.
Proof.
  induction s as [|c s IH]; simpl.
  - destruct (startsWith p []) eqn:E; [discriminate|]. intros _ m H.
    pose proof (occurs_at_nil_inv _ _ H) as ->. apply occurs_at_0 in H. congruence.
  - destruct (startsWith p (c :: s)) eqn:E; [discriminate|].
    destruct (find p s) as [k|]; [discriminate|]. intros _ [|m] H.
    + apply occurs_at_0 in H. congruence.
    + apply occurs_at_S in H. now apply (IH eq_refl m).
Qed.

(** [find] returns the least offset at which the pattern occurs. *)
Lemma find_Some (p s : jsstring) (n : nat) :
  find p s = Some n <->
  occurs_at p s n /\ forall m, occurs_at p s m -> n <= m.
Proof.
  split; [apply find_sound|]. intros [Hn Hmin].
  destruct (find p s) as [k|] eqn:F.
  - apply find_sound in F as [Hk Hkmin].
    f_equal. apply Nat.le_antisymm; auto.
  - exfalso. exact (find_None _ _ F _ Hn).
Qed.

Lemma find_None_iff (p s : jsstring) : find p s = None <-> ~ occurs p s.
Proof.
  split.
  - intros F [n Hn]. exact (find_None _ _ F _ Hn).
  - intros H. destruct (find p s) as [k|] eqn:F; [|reflexivity].
    exfalso. apply H. exists k. now apply find_sound in F.
Qed.

Lemma includes_spec (p s : jsstring) : includes p s = true <-> occurs p s.
Proof.
  unfold includes. destruct (find p s) as [k|] eqn:F.
  - split; [|reflexivity]. intros _. exists k. now apply find_sound in F.
  - split; [discriminate|]. intros H. now apply find_None_iff in F.
Qed.

Lemma occurs_split (p s : jsstring) :
  occurs p s <-> exists l1 l2, s = l1 ++ p ++ l2.
Proof.
  split.
  - intros (n & l1 & l2 & E & _). eauto.
  - intros (l1 & l2 & E). exists (length l1), l1, l2. auto.
Qed.

(** First occurrence, written as a decomposition of the string. *)
Lemma find_app (p l1 l2 : jsstring) :
  (forall m, occurs_at p (l1 ++ p ++ l2) m -> length l1 <= m) ->
  find p (l1 ++ p ++ l2) = Some (length l1).
Proof.
  intro H. apply find_Some. split; [|exact H]. now exists l1, l2.
Qed.

Lemma indexOf_0 (p s : jsstring) : indexOf p s 0 = find p s.
Proof.
  unfold indexOf. simpl. destruct (find p s); reflexivity.
Qed.

Lemma indexOf_app (p l s : jsstring) :
  indexOf p (l ++ s) (length l) = option_map (Nat.add (length l)) (find p s).
Proof.
  unfold indexOf. rewrite length_app.
  replace (Nat.min (length l) (length l + length s)) with (length l) by lia.
  now rewrite skipn_app, skipn_all, Nat.sub_diag.
Qed.

Lemma substring_app (l m r : jsstring) :
  substring (l ++ m ++ r) (length l) (length l + length m) = m.
Proof.
  unfold substring. rewrite !length_app.
  replace (Nat.min (length l) (length l + (length m + length r))) with (length l) by lia.
  replace (Nat.min (length l + length m) (length l + (length m + length r)))
    with (length l + length m) by lia.
  replace (Nat.min (length l) (length l + length m)) with (length l) by lia.
  replace (Nat.max (length l) (length l + length m) - length l) with (length m) by lia.
  rewrite skipn_app, skipn_all, Nat.sub_diag. simpl.
  rewrite firstn_app, firstn_all, Nat.sub_diag. simpl. apply app_nil_r.
Qed.

End StringFacts.

(** * Facts about the specification vocabulary *)

Section SpecFacts.

Lemma Some_eq {A : Type} (x y : A) : Some x = Some y -> x = y.
Proof. congruence. Qed.

Lemma includes_lower (p t : jsstring) :
  includes p (toLowerCase t) = true <-> contains_ci p t.
Proof.
  rewrite includes_spec, occurs_split. unfold contains_ci, toLowerCase. split.
  - intros (l1 & l2 & E).
    apply map_eq_app in E as (t1 & t' & -> & <- & E).
    apply map_eq_app in E as (u & t2 & -> & <- & <-).
    now exists t1, u, t2.
  - intros (l1 & u & l2 & -> & <-).
    exists (map lower_char l1), (map lower_char l2). now rewrite !map_app.
Qed.

Lemma includes_lower_false (p t : jsstring) :
  includes p (toLowerCase t) = false <-> ~ contains_ci p t.
Proof.
  rewrite <- includes_lower. destruct (includes p (toLowerCase t)); split;
    congruence.
Qed.

Lemma imei_prefix_Some (chunk im : jsstring) :
  imei_prefix chunk = Some im <->
  exists rest, chunk = im ++ rest /\ length im = 15 /\ all_digits im.
Proof.
  unfold imei_prefix, all_digits. split.
  - destruct (length (firstn 15 chunk) =? 15) eqn:L; [|discriminate].
    destruct (forallb is_digit (firstn 15 chunk)) eqn:D; [|discriminate].
    cbn [andb]. intros E. apply Some_eq in E. subst im. exists (skipn 15 chunk).
    rewrite firstn_skipn. apply Nat.eqb_eq in L.
    rewrite forallb_forall in D. repeat split; auto.
    now apply Forall_forall.
  - intros (rest & -> & L & D).
    assert (F : firstn 15 (im ++ rest) = im).
    { rewrite <- L, firstn_app, Nat.sub_diag, firstn_all. simpl. apply app_nil_r. }
    rewrite F. apply Nat.eqb_eq in L. rewrite L.
    rewrite Forall_forall in D. rewrite <- forallb_forall in D. now rewrite D.
Qed.

Lemma imei_prefix_None (chunk : jsstring) :
  imei_prefix chunk = None <-> ~ starts_with_15_digits chunk.
Proof.
  split.
  - intros E (im & rest & H). 
    assert (imei_prefix chunk = Some im) by (apply imei_prefix_Some; eauto).
    congruence.
  - intros H. destruct (imei_prefix chunk) as [im|] eqn:E; [|reflexivity].
    exfalso. apply H. apply imei_prefix_Some in E as (rest & E). now exists im, rest.
Qed.

Lemma leading_digits_app (ds rest : jsstring) :
  all_digits ds -> length ds <= leading_digits (ds ++ rest).
Proof.
  induction 1 as [|c ds Hc _ IH]; simpl; [lia|]. rewrite Hc. lia.
Qed.

Lemma leading_digits_firstn (n : nat) (s : jsstring) :
  n <= leading_digits s -> length (firstn n s) = n /\ all_digits (firstn n s).
Proof.
  revert s; induction n as [|n IH]; intros s H.
  - split; [reflexivity | constructor].
  - destruct s as [|c s]; simpl in H; [lia|].
    destruct (is_digit c) eqn:D; [|lia].
    destruct (IH s) as [L A]; [lia|]. simpl. split; [now rewrite L|].
    now constructor.
Qed.

Lemma starts_with_15_digits_iff (chunk : jsstring) :
  starts_with_15_digits chunk <-> 15 <= leading_digits chunk.
Proof.
  split.
  - intros (im & rest & -> & L & D). rewrite <- L. now apply leading_digits_app.
  - intros H. destruct (leading_digits_firstn 15 chunk H) as [L D].
    exists (firstn 15 chunk), (skipn 15 chunk). now rewrite firstn_skipn.
Qed.

Lemma occurs_at_skipn (p s : jsstring) (n k : nat) :
  occurs_at p s n -> k <= n -> occurs_at p (skipn k s) (n - k).
Proof.
  intros (l1 & l2 & -> & L) Hk. exists (skipn k l1), l2.
  rewrite skipn_app, length_skipn, L.
  replace (k - n) with 0 by lia. simpl. split; [reflexivity | lia].
Qed.

Lemma pre_block_Some (chunk pre : jsstring) :
  pre_block chunk = Some pre ->
  exists a b, chunk = a ++ lit "<pre>" ++ pre ++ lit "</pre>" ++ b.
Proof.
  unfold pre_block.
  destruct (find (lit "<pre>") chunk) as [p|] eqn:F; [|discriminate].
  apply find_sound in F as [(a & r & -> & La) _].
  replace (skipn (p + 5) (a ++ lit "<pre>" ++ r)) with r.
  2:{ rewrite skipn_app, La. replace (p + 5 - p) with 5 by lia.
      rewrite skipn_all2 by lia. reflexivity. }
  destruct (find (lit "</pre>") r) as [q|] eqn:G; [|discriminate].
  apply find_sound in G as [(m & b & -> & Lm) _]. intros [= <-].
  exists a, b. rewrite firstn_app, <- Lm, firstn_all, Nat.sub_diag. simpl.
  now rewrite app_nil_r.
Qed.

Lemma pre_block_None (chunk : jsstring) :
  pre_block chunk = None <-> ~ has_pre_block chunk.
Proof.
  split.
  - intros E (a & pre & b & Hc). revert E. unfold pre_block.
    destruct (find (lit "<pre>") chunk) as [p|] eqn:F.
    + pose proof (find_sound _ _ _ F) as [_ Hmin].
      assert (Hp : p <= length a) by (apply Hmin; exists a, (pre ++ lit "</pre>" ++ b); auto).
      assert (Ho : occurs_at (lit "</pre>") chunk (length a + 5 + length pre)).
      { exists (a ++ lit "<pre>" ++ pre), b. rewrite Hc, !length_app. simpl.
        rewrite <- !app_assoc. split; [reflexivity | lia]. }
      apply occurs_at_skipn with (k := p + 5) in Ho; [|lia].
      destruct (find (lit "</pre>") (skipn (p + 5) chunk)) eqn:G; [discriminate|].
      exfalso. exact (find_None _ _ G _ Ho).
    + exfalso. apply (find_None _ _ F (length a)). now exists a, (pre ++ lit "</pre>" ++ b).
  - intros H. destruct (pre_block chunk) as [pre|] eqn:E; [|reflexivity].
    exfalso. apply H. apply pre_block_Some in E as (a & b & E). now exists a, pre, b.
Qed.

Lemma last_word_snoc (prev : bool) (pre : jsstring) (e : ascii) :
  last_word prev (pre ++ [e]) = is_word e.
Proof.
  revert prev; induction pre as [|c pre IH]; intros prev; simpl; auto.
Qed.

Lemma year_here_spec (s : jsstring) :
  year_here s = true <->
  exists y post, s = y ++ post /\ year_token y /\ boundary_after post.
Proof.
  split.
  - destruct s as [|a [|b [|c [|d rest]]]]; simpl; try discriminate.
    rewrite !andb_true_iff, orb_true_iff, !andb_true_iff, !Ascii.eqb_eq.
    intros [[[Hab Hc] Hd] Hr].
    exists [a; b; c; d], rest. split; [reflexivity|]. split.
    + exists c, d. destruct Hab as [[-> ->]|[-> ->]]; auto.
    + destruct rest; simpl; [exact I|]. now apply negb_true_iff.
  - intros (y & post & -> & (c & d & Hy & Hc & Hd) & Hp).
    destruct Hy as [-> | ->]; simpl; rewrite Hc, Hd; simpl;
      destruct post; simpl in *; auto; now rewrite Hp.
Qed.

Lemma year_scan_spec (prev : bool) (s : jsstring) :
  year_scan prev s = true <->
  exists pre y post,
    s = pre ++ y ++ post /\ year_token y
    /\ last_word prev pre = false /\ boundary_after post.
Proof.
  split.
  - revert prev; induction s as [|c s IH]; intros prev; cbn [year_scan]; [discriminate|].
    rewrite orb_true_iff. intros [H | H].
    + apply andb_true_iff in H as [Hp Hy]. apply negb_true_iff in Hp.
      apply year_here_spec in Hy as (y & post & E & Hy & Ha).
      exists [], y, post. simpl. auto.
    + apply IH in H as (pre & y & post & -> & Hy & Hl & Ha).
      exists (c :: pre), y, post. simpl. auto.
  - intros (pre & y & post & -> & Hy & Hl & Ha).
    revert prev Hl; induction pre as [|c pre IH]; intros prev Hl.
    + simpl in Hl. subst prev. simpl app.
      assert (Hh : year_here (y ++ post) = true)
        by (apply year_here_spec; exists y, post; auto).
      destruct Hy as (c & d & [-> | ->] & _); cbn [app lit list_ascii_of_string] in *;
        cbn [year_scan]; rewrite Hh; reflexivity.
    + cbn [app year_scan]. apply orb_true_iff. right. apply IH. exact Hl.
Qed.

Lemma test_year_spec (s : jsstring) : test_year s = true <-> has_year s.
Proof. apply year_scan_spec. Qed.

Lemma truthy_false (s : jsstring) : truthy s = false <-> s = [].
Proof. destruct s; simpl; split; congruence. Qed.

Lemma truthy_true (s : jsstring) : truthy s = true <-> s <> [].
Proof. destruct s; simpl; split; congruence. Qed.

End SpecFacts.

(** * The extractor *)

Section Extractor.

Lemma parse_chunk_Some (i : nat) (chunk : jsstring) (d : Device) :
  parse_chunk i chunk = Some d ->
  exists im pre,
    imei_prefix chunk = Some im /\ pre_block chunk = Some pre
    /\ d = {| id := im ++ lit "-" ++ show_nat i;
              imei := im;
              imei2 := Some (getValue pre (lit "IMEI2"));
              modelDesc := getValue pre (lit "Model Description");
              serial := Some (getValue pre (lit "Serial Number"));
              warrantyStatus := Some (getValue pre (lit "Warranty Status"));
              icloudLock := Some (toUpperCase (getValue pre (lit "iCloud Lock")));
              carrier := Some (getValue pre (lit "Locked Carrier"));
              simLock := Some (getValue pre (lit "Sim-Lock Status"));
              estPurchaseDate := Some (getValue pre (lit "Estimated Purchase Date"));
              activationStatus := Some (getValue pre (lit "Activation Status"));
              rawText := pre;
              group := derive_group (getValue pre (lit "Locked Carrier"))
                                    (getValue pre (lit "Sim-Lock Status"));
              isActive := derive_isActive (getValue pre (lit "Activation Status"))
                                          (getValue pre (lit "Estimated Purchase Date")) |}.
Proof.
  unfold parse_chunk.
  destruct (imei_prefix chunk) as [im|]; [|discriminate].
  destruct (pre_block chunk) as [pre|]; [|discriminate].
  intro E. apply Some_eq in E. exists im, pre. auto.
Qed.

Lemma parse_chunk_None (i : nat) (chunk : jsstring) :
  parse_chunk i chunk = None <->
  ~ starts_with_15_digits chunk \/ ~ has_pre_block chunk.
Proof.
  rewrite <- imei_prefix_None, <- pre_block_None. unfold parse_chunk.
  destruct (imei_prefix chunk) as [im|]; [|tauto].
  destruct (pre_block chunk) as [pre|]; [|tauto].
  split; [discriminate | intros [H|H]; discriminate].
Qed.

Lemma parse_loop_In (d : Device) (chunks : list jsstring) (i : nat) :
  In d (parse_loop i chunks) <->
  exists k chunk, nth_error chunks k = Some chunk /\ parse_chunk (i + k) chunk = Some d.
Proof.
  revert i; induction chunks as [|c chunks IH]; intros i; cbn [parse_loop].
  - split; [intros [] | intros (k & chunk & H & _); destruct k; discriminate].
  - assert (Hrest : In d (parse_loop (S i) chunks) <->
                    exists k chunk, nth_error chunks k = Some chunk
                                    /\ parse_chunk (i + S k) chunk = Some d).
    { rewrite IH. split; intros (k & chunk & H1 & H2); exists k, chunk;
        (split; [exact H1|]); now rewrite <- ?Nat.add_succ_comm in *. }
    destruct (parse_chunk i c) as [d0|] eqn:E.
    + cbn [In]. rewrite Hrest. split.
      * intros [<- | (k & chunk & H1 & H2)].
        -- exists 0, c. now rewrite Nat.add_0_r.
        -- exists (S k), chunk. auto.
      * intros ([|k] & chunk & H1 & H2).
        -- left. rewrite Nat.add_0_r in H2. cbn in H1. congruence.
        -- right. exists k, chunk. auto.
    + rewrite Hrest. split.
      * intros (k & chunk & H1 & H2). exists (S k), chunk. auto.
      * intros ([|k] & chunk & H1 & H2).
        -- rewrite Nat.add_0_r in H2. cbn in H1. congruence.
        -- exists k, chunk. auto.
Qed.

Lemma nth_error_tl {A : Type} (l : list A) (k : nat) :
  nth_error (tl l) k = nth_error l (S k).
Proof. destruct l; [now destruct k | reflexivity]. Qed.

(** Every emitted device is built from one segment after the first. *)
Lemma parseSickwHtml_In (html : jsstring) (d : Device) :
  In d (parseSickwHtml html) <->
  exists k chunk, 1 <= k /\ nth_error (split imei_marker html) k = Some chunk
                  /\ parse_chunk k chunk = Some d.
Proof.
  unfold parseSickwHtml. rewrite parse_loop_In. split.
  - intros (k & chunk & H1 & H2). rewrite nth_error_tl in H1.
    exists (S k), chunk. repeat split; [lia | exact H1 | exact H2].
  - intros ([|k] & chunk & Hk & H1 & H2); [lia|].
    exists k, chunk. rewrite nth_error_tl. auto.
Qed.

Lemma derive_group_rule (c s : jsstring) : group_rule s c (derive_group c s).
Proof.
  unfold group_rule, derive_group.
  destruct (includes (lit "unlocked") (toLowerCase s)) eqn:E1;
  destruct (includes (lit "unlock") (toLowerCase c)) eqn:E2;
  destruct (includes (lit "open policy") (toLowerCase c)) eqn:E3;
  destruct (includes (lit "t-mobile") (toLowerCase c)) eqn:E4;
  destruct (includes (lit "sprint") (toLowerCase c)) eqn:E5;
  destruct (includes (lit "at&t") (toLowerCase c)) eqn:E6;
  destruct (includes (lit "verizon") (toLowerCase c)) eqn:E7;
  cbn [orb];
  repeat match goal with
         | H : includes _ (toLowerCase _) = true |- _ => apply includes_lower in H
         | H : includes _ (toLowerCase _) = false |- _ => apply includes_lower_false in H
         end;
  repeat split; intros; try reflexivity; exfalso; tauto.
Qed.

Lemma year_token_length (y : jsstring) : year_token y -> length y = 4.
Proof. intros (c & d & [-> | ->] & _); reflexivity. Qed.

Lemma has_year_nil : ~ has_year [].
Proof.
  intros (pre & y & post & E & Hy & _). apply year_token_length in Hy.
  apply (f_equal (@length ascii)) in E. rewrite !length_app in E. simpl in E. lia.
Qed.

Lemma derive_isActive_rule (a e : jsstring) : isActive_rule a e (derive_isActive a e).
Proof.
  unfold isActive_rule, derive_isActive. split.
  - intros Ha. apply truthy_true in Ha. rewrite Ha.
    destruct (includes (lit "not activated") (toLowerCase a)) eqn:E.
    + apply includes_lower in E. repeat split; auto; try discriminate; tauto.
    + apply includes_lower_false in E. repeat split; auto; try discriminate;
        intros; contradiction.
  - intros ->. cbn [truthy].
    destruct (truthy e) eqn:T.
    + destruct (includes (lit "not activated") (toLowerCase e)) eqn:E.
      * apply includes_lower in E. repeat split; auto; intros; contradiction.
      * apply includes_lower_false in E.
        destruct (test_year e) eqn:Y.
        -- apply test_year_spec in Y. repeat split; auto; intros; try contradiction.
           subst e. discriminate.
        -- assert (~ has_year e) by (rewrite <- test_year_spec; congruence).
           repeat split; auto; intros; contradiction.
    + apply truthy_false in T. subst e. repeat split; auto.
      intros _ H. now apply has_year_nil in H.
Qed.

End Extractor.

Section CaseFacts.

Lemma upper_units_not_lower (c : ascii) :
  forallb (fun u => negb (is_lower_unit u)) (upper_units c) = true.
Proof. destruct c as [[] [] [] [] [] [] [] []]; vm_compute; reflexivity. Qed.

Lemma upper_units_O (c : ascii) :
  upper_units c = [79%N] <-> lower_char c = "o"%char.
Proof. destruct c as [[] [] [] [] [] [] [] []]; vm_compute; split; congruence. Qed.

Lemma upper_units_N (c : ascii) :
  upper_units c = [78%N] <-> lower_char c = "n"%char.
Proof. destruct c as [[] [] [] [] [] [] [] []]; vm_compute; split; congruence. Qed.

(** One code unit per character, two for the sharp s. *)
Lemma upper_units_shape (c : ascii) :
  (exists x, upper_units c = [x]) \/ upper_units c = [83%N; 83%N].
Proof.
  destruct c as [[] [] [] [] [] [] [] []]; vm_compute;
    first [ right; reflexivity | left; eexists; reflexivity ].
Qed.

Lemma toUpperCase_ON (s : jsstring) :
  toUpperCase s = units (lit "ON") <-> toLowerCase s = lit "on".
Proof.
  change (units (lit "ON")) with [79%N; 78%N].
  destruct s as [|a [|b [|c s]]].
  - split; discriminate.
  - cbn [toUpperCase flat_map toLowerCase map]. rewrite app_nil_r.
    split; [|discriminate].
    destruct (upper_units_shape a) as [[x ->] | ->]; discriminate.
  - cbn [toUpperCase flat_map toLowerCase map]. rewrite app_nil_r. split.
    + intros E.
      destruct (upper_units_shape a) as [[x Ha] | Ha]; rewrite Ha in E;
        destruct (upper_units_shape b) as [[y Hb] | Hb]; rewrite Hb in E;
        try discriminate E.
      injection E as -> ->.
      apply upper_units_O in Ha. apply upper_units_N in Hb. now rewrite Ha, Hb.
    + intros [= Ha Hb]. apply upper_units_O in Ha. apply upper_units_N in Hb.
      now rewrite Ha, Hb.
  - cbn [toUpperCase flat_map toLowerCase map]. split; [|discriminate].
    intros E. apply (f_equal (@length N)) in E. rewrite !length_app in E.
    assert (L : forall x, 1 <= length (upper_units x)).
    { intros x. destruct (upper_units_shape x) as [[y ->] | ->]; cbn; lia. }
    pose proof (L a). pose proof (L b). pose proof (L c). cbn [length] in E. lia.
Qed.

Lemma toUpperCase_no_lower (s : jsstring) :
  Forall (fun u => is_lower_unit u = false) (toUpperCase s).
Proof.
  unfold toUpperCase. apply Forall_forall. intros u Hu.
  apply in_flat_map in Hu as (c & _ & Hu).
  pose proof (upper_units_not_lower c) as H. rewrite forallb_forall in H.
  apply H in Hu. now apply negb_true_iff in Hu.
Qed.

Lemma getValue_absent (pre key : jsstring) :
  ~ occurs (key ++ lit ":") pre -> getValue pre key = [].
Proof.
  intro H. unfold getValue. rewrite indexOf_0.
  apply find_None_iff in H. now rewrite H.
Qed.

End CaseFacts.

(** * Claims about the extractor *)

(** C8.  Every device emitted by the extractor has an [imei] of exactly
    fifteen decimal digits, read from the start of a segment that follows
    an IMEI marker and holds a preformatted block; a segment that does not
    begin with fifteen digits, or holds no preformatted block, yields no
    record: the loop passes over it without emitting anything. *)
Theorem parse_imei_is_15_digits (html : jsstring) :
  (forall d, In d (parseSickwHtml html) ->
     length (imei d) = 15 /\ all_digits (imei d)
     /\ exists k chunk,
          1 <= k /\ nth_error (split imei_marker html) k = Some chunk
          /\ (exists rest, chunk = imei d ++ rest)
          /\ (exists a b, chunk = a ++ lit "<pre>" ++ rawText d ++ lit "</pre>" ++ b))
  /\ (forall k chunk rest,
        ~ starts_with_15_digits chunk \/ ~ has_pre_block chunk ->
        parse_chunk k chunk = None
        /\ parse_loop k (chunk :: rest) = parse_loop (S k) rest).
Proof.
  split.
  - intros d Hd. apply parseSickwHtml_In in Hd as (k & chunk & Hk & Hn & Hp).
    apply parse_chunk_Some in Hp as (im & pre & Him & Hpre & ->).
    cbn [imei rawText].
    apply imei_prefix_Some in Him as (rest & Hc & L & D).
    apply pre_block_Some in Hpre as (a & b & Hab).
    repeat split; auto. exists k, chunk. repeat split; eauto.
  - intros k chunk rest H. apply (parse_chunk_None k) in H.
    split; [exact H|]. cbn [parse_loop]. now rewrite H.
Qed.

Lemma parse_imei_is_15_digits_witness :
  length (imei sample_d1) = 15 /\ all_digits (imei sample_d1).
Proof.
  destruct (parse_imei_is_15_digits sample_html) as [H _].
  destruct (H sample_d1) as (L & D & _).
  - vm_compute. left. reflexivity.
  - split; [exact L | exact D].
Defined.

(** C10.  A segment that holds a preformatted block is accepted as soon
    as it begins with at least fifteen decimal digits: with sixteen or
    more the device is still emitted, its [imei] is the first fifteen of
    them and the other digits stay in the text of the segment; it is
    dropped exactly when fewer than fifteen digits (or a non-digit) start
    it. *)
Theorem parse_accepts_longer_digit_runs (i : nat) (chunk : jsstring) :
  has_pre_block chunk ->
  (forall ds rest, chunk = ds ++ rest -> all_digits ds -> 15 <= length ds ->
     exists d, parse_chunk i chunk = Some d /\ imei d = firstn 15 ds
               /\ chunk = imei d ++ skipn 15 ds ++ rest)
  /\ (parse_chunk i chunk = None <-> leading_digits chunk < 15).
Proof.
  intros Hpre. split.
  - intros ds rest -> D L.
    assert (Hs : starts_with_15_digits (ds ++ rest)).
    { apply starts_with_15_digits_iff. pose proof (leading_digits_app ds rest D). lia. }
    destruct (parse_chunk i (ds ++ rest)) as [d|] eqn:E.
    + exists d. split; [reflexivity|].
      apply parse_chunk_Some in E as (im & pre & Him & _ & ->). cbn [imei].
      unfold imei_prefix in Him.
      destruct ((length (firstn 15 (ds ++ rest)) =? 15)
                && forallb is_digit (firstn 15 (ds ++ rest))); [|discriminate].
      apply Some_eq in Him. subst im.
      assert (F : firstn 15 (ds ++ rest) = firstn 15 ds).
      { rewrite firstn_app. replace (15 - length ds) with 0 by lia.
        rewrite firstn_O. apply app_nil_r. }
      rewrite F. split; [reflexivity|].
      now rewrite app_assoc, firstn_skipn.
    + apply parse_chunk_None in E. tauto.
  - rewrite parse_chunk_None, starts_with_15_digits_iff. split.
    + intros [H | H]; [lia | contradiction].
    + intros H. left. lia.
Qed.

Lemma parse_accepts_longer_digit_runs_witness :
  exists d, parse_chunk 3 sample_chunk3 = Some d
            /\ imei d = firstn 15 (lit "3333333333333339")
            /\ sample_chunk3
               = imei d ++ skipn 15 (lit "3333333333333339")
                 ++ lit "<pre>" ++ sample_pre3 ++ lit "</pre>".
Proof.
  assert (Hpre : has_pre_block sample_chunk3).
  { exists (lit "3333333333333339"), sample_pre3, []. reflexivity. }
  destruct (parse_accepts_longer_digit_runs 3 sample_chunk3 Hpre) as [H _].
  apply (H (lit "3333333333333339") (lit "<pre>" ++ sample_pre3 ++ lit "</pre>")).
  - reflexivity.
  - repeat constructor.
  - simpl. lia.
Defined.

(** C3 as stated fails: the text after the label is stored upper-cased
    whatever it is; the sample report stores [LOST]. *)
Lemma icloudLock_three_values_fails :
  ~ (forall html d, In d (parseSickwHtml html) ->
       icloudLock d = Some (units (lit "ON")) \/ icloudLock d = Some (units (lit "OFF"))
       \/ icloudLock d = Some []).
Proof.
  intro H. destruct (H sample_html sample_d3) as [E | [E | E]];
    [vm_compute; right; left; reflexivity | discriminate E ..].
Qed.

(** C3, amended.  The stored [icloudLock] of every emitted device is the
    upper-cased text extracted after the label [iCloud Lock:] in the
    device's preformatted block, whatever that text is: it holds none of
    the letters a-z, it is [ON] exactly when the extracted text reads "on"
    in any letter case, and it is empty when the label is absent. *)
Theorem icloudLock_is_uppercased_text (html : jsstring) (d : Device) :
  In d (parseSickwHtml html) ->
  let v := getValue (rawText d) (lit "iCloud Lock") in
  icloudLock d = Some (toUpperCase v)
  /\ Forall (fun u => is_lower_unit u = false) (toUpperCase v)
  /\ (icloudLock d = Some (units (lit "ON")) <-> toLowerCase v = lit "on")
  /\ (~ occurs (lit "iCloud Lock:") (rawText d) -> icloudLock d = Some []).
Proof.
  intros Hd. apply parseSickwHtml_In in Hd as (k & chunk & _ & _ & Hp).
  apply parse_chunk_Some in Hp as (im & pre & _ & _ & ->).
  cbn [icloudLock rawText]. repeat split.
  - apply toUpperCase_no_lower.
  - intros E. apply Some_eq in E. now apply toUpperCase_ON.
  - intros E. f_equal. now apply toUpperCase_ON.
  - intros H. rewrite (getValue_absent pre (lit "iCloud Lock") H). reflexivity.
Qed.

Lemma icloudLock_is_uppercased_text_witness :
  icloudLock sample_d1
  = Some (toUpperCase (getValue (rawText sample_d1) (lit "iCloud Lock"))).
Proof.
  destruct (icloudLock_is_uppercased_text sample_html sample_d1) as [H _].
  - vm_compute. left. reflexivity.
  - exact H.
Defined.

(** C5.  The carrier group of every emitted device follows the ordered,
    case-insensitive rules on its extracted sim-lock and carrier texts:
    Unlocked first, then T-Mobile/Sprint, AT&T, Verizon, else Other; a
    sim-lock text containing "Unlocked" gives Unlocked even when the
    carrier text names AT&T. *)
Theorem group_follows_ordered_rules (html : jsstring) (d : Device) :
  In d (parseSickwHtml html) ->
  exists c s,
    carrier d = Some c /\ simLock d = Some s
    /\ c = getValue (rawText d) (lit "Locked Carrier")
    /\ s = getValue (rawText d) (lit "Sim-Lock Status")
    /\ group_rule s c (group d)
    /\ (contains_ci (lit "unlocked") s -> contains_ci (lit "at&t") c ->
        group d = Unlocked /\ group d <> ATT).
Proof.
  intros Hd. apply parseSickwHtml_In in Hd as (k & chunk & _ & _ & Hp).
  apply parse_chunk_Some in Hp as (im & pre & _ & _ & ->).
  cbn [carrier simLock rawText group].
  exists (getValue pre (lit "Locked Carrier")), (getValue pre (lit "Sim-Lock Status")).
  pose proof (derive_group_rule (getValue pre (lit "Locked Carrier"))
                                (getValue pre (lit "Sim-Lock Status"))) as R.
  do 4 (split; [reflexivity|]). split; [exact R|].
  intros Hs Hc. destruct R as [R _]. rewrite R by now left.
  split; [reflexivity | discriminate].
Qed.

Lemma group_follows_ordered_rules_witness :
  exists c s, carrier sample_d3 = Some c /\ simLock sample_d3 = Some s
              /\ group_rule s c (group sample_d3).
Proof.
  destruct (group_follows_ordered_rules sample_html sample_d3)
    as (c & s & H1 & H2 & _ & _ & H3 & _).
  - vm_compute. right. left. reflexivity.
  - exists c, s. auto.
Defined.



(** * Field extraction *)

Section FieldSpan.

Lemma occurs_at_char (c : ascii) (s : jsstring) (m : nat) :
  occurs_at [c] s m -> nth_error s m = Some c.
Proof.
  intros (l1 & l2 & -> & <-). rewrite nth_error_app2, Nat.sub_diag by lia.
  reflexivity.
Qed.

Lemma find_char_first (c : ascii) (raw tail : jsstring) :
  ~ In c raw -> find [c] (raw ++ [c] ++ tail) = Some (length raw).
Proof.
  intros H. apply find_app. intros m Hm.
  destruct (le_lt_dec (length raw) m) as [|Hlt]; [assumption|].
  exfalso. apply H. apply occurs_at_char in Hm.
  rewrite nth_error_app1 in Hm by assumption. eapply nth_error_In; eauto.
Qed.

Lemma find_char_absent (c : ascii) (s : jsstring) : ~ In c s -> find [c] s = None.
Proof.
  intros H. apply find_None_iff. intros [m Hm].
  apply occurs_at_char in Hm. apply H. eapply nth_error_In; eauto.
Qed.

Lemma substring_tail (l r : jsstring) :
  substring (l ++ r) (length l) (length (l ++ r)) = r.
Proof.
  pose proof (substring_app l r []) as H. rewrite app_nil_r in H.
  now rewrite length_app.
Qed.

(** The three ways [getValue] finds the end of a field, once the label
    is located. *)
Lemma getValue_located (key before rest : jsstring) :
  find (key ++ lit ":") (before ++ (key ++ lit ":") ++ rest) = Some (length before) ->
  getValue (before ++ (key ++ lit ":") ++ rest) key
  = clean_value
      (substring ((before ++ key ++ lit ":") ++ rest)
         (length (before ++ key ++ lit ":"))
         (match find (lit "<br") rest with
          | Some e => length (before ++ key ++ lit ":") + e
          | None =>
              match find nl rest with
              | Some e => length (before ++ key ++ lit ":") + e
              | None => length ((before ++ key ++ lit ":") ++ rest)
              end
          end)).
Proof.
  intros F. unfold getValue. rewrite indexOf_0, F.
  replace (length before + length (key ++ lit ":"))
    with (length (before ++ key ++ lit ":")) by now rewrite length_app.
  replace (before ++ (key ++ lit ":") ++ rest)
    with ((before ++ key ++ lit ":") ++ rest) by now rewrite <- !app_assoc.
  rewrite !indexOf_app.
  destruct (find (lit "<br") rest) as [e|]; [reflexivity|].
  destruct (find nl rest) as [e|]; reflexivity.
Qed.

End FieldSpan.

(** C2 as stated fails: a newline that comes before the next break tag
    does not end the value.  In the block "A: x", newline, "B: y<br>" the
    field [A] runs through the newline up to the break tag. *)
Lemma getValue_newline_before_br_fails :
  ~ (forall key before raw tail,
       find (key ++ lit ":") (before ++ (key ++ lit ":") ++ raw ++ nl ++ tail)
       = Some (length before) ->
       ~ In newline raw -> ~ occurs (lit "<br") (raw ++ nl) ->
       getValue (before ++ (key ++ lit ":") ++ raw ++ nl ++ tail) key = clean_value raw).
Proof.
  intro H.
  specialize (H (lit "A") [] (lit " x") (lit "B: y<br>")).
  assert (E : getValue (lit "A: x" ++ nl ++ lit "B: y<br>") (lit "A")
              = lit "x" ++ nl ++ lit "B: y") by reflexivity.
  assert (C : clean_value (lit " x") = lit "x") by reflexivity.
  rewrite C in H. cbn [app lit list_ascii_of_string] in H, E.
  rewrite E in H. clear E C.
  assert (X : lit "x" ++ nl ++ lit "B: y" = lit "x" -> False) by discriminate.
  apply X, H.
  - reflexivity.
  - vm_compute. intros [E | [E | []]]; discriminate E.
  - rewrite <- includes_spec. vm_compute. discriminate.
Qed.

(** C2, amended.  Once the label followed by a colon is located at its
    first occurrence, the value runs from just after the colon to the
    next break tag [<br] if one occurs anywhere after the colon; only when
    no break tag follows does it stop at the next newline; with neither,
    it runs to the end of the block.  The span is then tag-stripped,
    [&nbsp;]-decoded and trimmed. *)
Theorem getValue_span (key before rest : jsstring) :
  find (key ++ lit ":") (before ++ (key ++ lit ":") ++ rest) = Some (length before) ->
  (forall raw tail,
     rest = raw ++ lit "<br" ++ tail -> find (lit "<br") rest = Some (length raw) ->
     getValue (before ++ (key ++ lit ":") ++ rest) key = clean_value raw)
  /\ (~ occurs (lit "<br") rest ->
      forall raw tail,
        rest = raw ++ nl ++ tail -> ~ In newline raw ->
        getValue (before ++ (key ++ lit ":") ++ rest) key = clean_value raw)
  /\ (~ occurs (lit "<br") rest -> ~ In newline rest ->
      getValue (before ++ (key ++ lit ":") ++ rest) key = clean_value rest).
Proof.
  intros F. rewrite (getValue_located key before rest F). repeat split.
  - intros raw tail -> Hbr. rewrite Hbr. f_equal. apply substring_app.
  - intros Hno raw tail -> Hnl. apply find_None_iff in Hno. rewrite Hno.
    unfold nl. fold newline. rewrite (find_char_first newline raw tail Hnl).
    f_equal. apply (substring_app _ raw ([newline] ++ tail)).
  - intros Hno Hnl. apply find_None_iff in Hno. rewrite Hno.
    unfold nl. fold newline. rewrite (find_char_absent newline rest Hnl).
    f_equal. apply substring_tail.
Qed.

Lemma getValue_span_witness :
  getValue (lit "A: x" ++ nl ++ lit "B: y<br>C: z") (lit "A")
  = clean_value (lit " x" ++ nl ++ lit "B: y").
Proof.
  destruct (getValue_span (lit "A") [] (lit " x" ++ nl ++ lit "B: y<br>C: z"))
    as [H _].
  - reflexivity.
  - apply (H (lit " x" ++ nl ++ lit "B: y") (lit ">C: z")); reflexivity.
Defined.

(** * The export formatter *)

Section ExportBuckets.

Lemma exactly_one_bucket (d : Device) :
  length (filter (fun p => p d) bucket_preds) = 1.
Proof.
  unfold bucket_preds, is_icloud, is_tmobileNonActive, is_tmobileActive,
    is_lockedOtherNonActive, is_lockedOtherActive, is_unlockedNonActive,
    is_unlockedActive. cbn [filter].
  destruct (icloud_on d), (group d), (isActive d); reflexivity.
Qed.

Lemma concat_filter_cons (ps : list (Device -> bool)) (d : Device) (l : list Device) :
  Permutation (concat (map (fun p => filter p (d :: l)) ps))
              (repeat d (length (filter (fun p => p d) ps))
               ++ concat (map (fun p => filter p l) ps)).
Proof.
  induction ps as [|p ps IH]; cbn [map concat filter]; [constructor|].
  destruct (p d); cbn [length repeat app].
  - constructor. rewrite IH. apply Permutation_app_swap_app.
  - rewrite IH. apply Permutation_app_swap_app.
Qed.

Lemma concat_filter_perm (ps : list (Device -> bool)) (l : list Device) :
  (forall d, length (filter (fun p => p d) ps) = 1) ->
  Permutation (concat (map (fun p => filter p l) ps)) l.
Proof.
  intros H. induction l as [|d l IH].
  - replace (concat (map (fun p => filter p []) ps)) with (@nil Device);
      [constructor|].
    clear H. induction ps as [|p ps IHp]; cbn; auto.
  - rewrite concat_filter_cons, H. cbn [repeat app]. now constructor.
Qed.

Lemma buckets_nth (devices : list Device) (i : nat) :
  nth i (buckets devices) []
  = filter (nth i bucket_preds (fun _ => false)) devices.
Proof.
  assert (N : filter (fun _ : Device => false) devices = [])
    by (induction devices; auto).
  unfold buckets, bucket_preds.
  do 7 (destruct i as [|i]; [reflexivity|]).
  cbn [map nth]. destruct i; now rewrite N.
Qed.

Lemma bucket_preds_exclusive (d : Device) (i j : nat) :
  nth i bucket_preds (fun _ => false) d = true ->
  nth j bucket_preds (fun _ => false) d = true ->
  i = j.
Proof.
  unfold bucket_preds, is_icloud, is_tmobileNonActive, is_tmobileActive,
    is_lockedOtherNonActive, is_lockedOtherActive, is_unlockedNonActive,
    is_unlockedActive.
  destruct i as [|[|[|[|[|[|[|i]]]]]]]; destruct j as [|[|[|[|[|[|[|j]]]]]]];
    cbn [nth]; try destruct i; try destruct j;
    destruct (icloud_on d), (group d), (isActive d); cbn;
    intros; try reflexivity; try discriminate.
Qed.

Lemma bucket_preds_total (d : Device) :
  exists i, i < 7 /\ nth i bucket_preds (fun _ => false) d = true.
Proof.
  unfold bucket_preds, is_icloud, is_tmobileNonActive, is_tmobileActive,
    is_lockedOtherNonActive, is_lockedOtherActive, is_unlockedNonActive,
    is_unlockedActive.
  destruct (icloud_on d) eqn:I, (group d) eqn:G, (isActive d) eqn:A;
    first [ exists 0; split; [lia|]; cbn; rewrite ?I, ?G, ?A; reflexivity
          | exists 1; split; [lia|]; cbn; rewrite ?I, ?G, ?A; reflexivity
          | exists 2; split; [lia|]; cbn; rewrite ?I, ?G, ?A; reflexivity
          | exists 3; split; [lia|]; cbn; rewrite ?I, ?G, ?A; reflexivity
          | exists 4; split; [lia|]; cbn; rewrite ?I, ?G, ?A; reflexivity
          | exists 5; split; [lia|]; cbn; rewrite ?I, ?G, ?A; reflexivity
          | exists 6; split; [lia|]; cbn; rewrite ?I, ?G, ?A; reflexivity ].
Qed.

End ExportBuckets.

(** C7.  The seven buckets of the export formatter partition the input:
    every device of the input lies in exactly one bucket, the bucket sizes
    add up to the length of the input, the buckets together are a
    rearrangement of the input, and a device whose [icloudLock] is [ON]
    lies in the first (ICLOUD) bucket whatever its group and activation
    flag. *)
Theorem export_buckets_partition (devices : list Device) :
  length (buckets devices) = 7
  /\ (forall d, In d devices ->
        exists i, i < 7 /\ In d (nth i (buckets devices) [])
                  /\ forall j, In d (nth j (buckets devices) []) -> j = i)
  /\ list_sum (map (@length Device) (buckets devices)) = length devices
  /\ Permutation (concat (buckets devices)) devices
  /\ (forall d, In d devices -> icloudLock d = Some (units (lit "ON")) ->
        In d (nth 0 (buckets devices) [])
        /\ forall j, In d (nth j (buckets devices) []) -> j = 0).
Proof.
  assert (P : Permutation (concat (buckets devices)) devices)
    by (apply concat_filter_perm, exactly_one_bucket).
  assert (X : forall d i j, In d (nth i (buckets devices) []) ->
                            In d (nth j (buckets devices) []) -> j = i).
  { intros d i j Hi Hj. rewrite buckets_nth in Hi, Hj.
    apply filter_In in Hi as [_ Hi]. apply filter_In in Hj as [_ Hj].
    exact (bucket_preds_exclusive d j i Hj Hi). }
  split; [reflexivity|]. split; [|split; [|split; [exact P|]]].
  - intros d Hd. destruct (bucket_preds_total d) as (i & Hi & Hp).
    exists i. split; [exact Hi|]. split.
    + rewrite buckets_nth. apply filter_In. auto.
    + intros j Hj. apply (X d i j); [|exact Hj].
      rewrite buckets_nth. apply filter_In. auto.
  - rewrite <- length_concat. now apply Permutation_length.
  - intros d Hd Hon.
    assert (H0 : In d (nth 0 (buckets devices) [])).
    { rewrite buckets_nth. apply filter_In. split; [exact Hd|].
      cbn. unfold is_icloud, icloud_on. rewrite Hon. reflexivity. }
    split; [exact H0|]. intros j Hj. exact (X d 0 j H0 Hj).
Qed.

Lemma export_buckets_partition_witness :
  In sample_d1 (nth 0 (buckets [sample_d1; sample_d3]) [])
  /\ list_sum (map (@length Device) (buckets [sample_d1; sample_d3])) = 2.
Proof.
  destruct (export_buckets_partition [sample_d1; sample_d3]) as (_ & _ & S & _ & H).
  split; [|exact S].
  apply (H sample_d1); [cbn; left; reflexivity | reflexivity].
Defined.

Section ExportLayout.

Lemma starts_ns_app (s t : jsstring) : starts_ns s -> starts_ns (s ++ t).
Proof. destruct s; [intros [] | auto]. Qed.

Lemma ends_ns_app (s t : jsstring) : ends_ns t -> ends_ns (s ++ t).
Proof. unfold ends_ns. rewrite rev_app_distr. apply starts_ns_app. Qed.

Lemma dropWhile_ns (s : jsstring) : starts_ns s -> dropWhile is_space s = s.
Proof. destruct s as [|a s]; [intros [] | cbn; now intros ->]. Qed.

Lemma dropWhile_spaces (ws r : jsstring) :
  forallb is_space ws = true ->
  dropWhile is_space (ws ++ r) = dropWhile is_space r.
Proof.
  induction ws as [|c ws IH]; cbn; [reflexivity|].
  intros H. apply andb_true_iff in H as [-> H]. auto.
Qed.

Lemma forallb_rev (f : ascii -> bool) (l : jsstring) :
  forallb f (rev l) = forallb f l.
Proof.
  induction l as [|c l IH]; cbn; [reflexivity|].
  rewrite forallb_app, IH. cbn. rewrite andb_true_r. apply andb_comm.
Qed.

Lemma trim_padded (s ws : jsstring) :
  starts_ns s -> ends_ns s -> forallb is_space ws = true -> trim (s ++ ws) = s.
Proof.
  intros Hs He Hw. unfold trim.
  rewrite (dropWhile_ns (s ++ ws)) by now apply starts_ns_app.
  rewrite rev_app_distr, dropWhile_spaces by now rewrite forallb_rev.
  rewrite dropWhile_ns by exact He. apply rev_involutive.
Qed.

Lemma join_cons (sep x : jsstring) (l : list jsstring) :
  l <> [] -> join sep (x :: l) = x ++ sep ++ join sep l.
Proof. destruct l; [congruence | reflexivity]. Qed.

Lemma starts_ns_join (sep x : jsstring) (l : list jsstring) :
  starts_ns x -> starts_ns (join sep (x :: l)).
Proof.
  intros H. destruct l; [exact H|]. rewrite join_cons by discriminate.
  now apply starts_ns_app.
Qed.

Lemma ends_ns_join (sep : jsstring) (l : list jsstring) :
  l <> [] -> Forall ends_ns l -> ends_ns (join sep l).
Proof.
  induction l as [|x l IH]; [congruence|]. intros _ H.
  inversion H as [|? ? Hx Hl]; subst.
  destruct l as [|y l]; [exact Hx|].
  rewrite join_cons by discriminate. do 2 apply ends_ns_app.
  apply IH; [discriminate | exact Hl].
Qed.

(** What the accumulation [output += s + "\n\n"] builds. *)
Lemma concat_terminated (sep : jsstring) (l : list jsstring) :
  l <> [] -> concat (map (fun s => s ++ sep) l) = join sep l ++ sep.
Proof.
  induction l as [|x l IH]; [congruence|]. intros _.
  destruct l as [|y l]; [cbn; now rewrite app_nil_r|].
  rewrite join_cons by discriminate.
  change (concat (map (fun s => s ++ sep) (x :: y :: l)))
    with ((x ++ sep) ++ concat (map (fun s => s ++ sep) (y :: l))).
  rewrite IH by discriminate. now rewrite <- !app_assoc.
Qed.

Lemma emit_section (title : jsstring) (bucket : list Device) (output : jsstring) :
  emit (title ++ nl ++ nl) bucket output
  = output ++ concat (map (fun s => s ++ nl ++ nl) (layout_section nl title bucket)).
Proof.
  unfold emit, layout_section, formatList. destruct bucket as [|d b].
  - cbn. now rewrite app_nil_r.
  - cbn [length Nat.ltb Nat.leb map concat]. rewrite app_nil_r.
    change format_entry with layout_entry. now rewrite <- !app_assoc.
Qed.

Lemma layout_entry_ends (d : Device) : ends_ns (layout_entry d).
Proof.
  unfold layout_entry. do 4 apply ends_ns_app. reflexivity.
Qed.

Lemma layout_section_good (title : jsstring) (bucket : list Device) :
  starts_ns title ->
  Forall (fun s => starts_ns s /\ ends_ns s) (layout_section nl title bucket).
Proof.
  intros Ht. destruct bucket as [|d b]; constructor; [|constructor].
  split; [now apply starts_ns_app|].
  do 3 apply ends_ns_app. apply ends_ns_join; [discriminate|].
  apply Forall_forall. intros s Hs.
  apply in_map_iff in Hs as (x & <- & _). apply layout_entry_ends.
Qed.

Lemma trim_sections (l : list jsstring) :
  Forall (fun s => starts_ns s /\ ends_ns s) l ->
  trim (concat (map (fun s => s ++ nl ++ nl) l)) = join (nl ++ nl) l.
Proof.
  intros H. destruct l as [|x l]; [reflexivity|].
  replace (map (fun s => s ++ nl ++ nl) (x :: l))
    with (map (fun s => s ++ (nl ++ nl)) (x :: l))
    by (apply map_ext; intros; reflexivity).
  rewrite concat_terminated by discriminate.
  apply trim_padded; [| |reflexivity].
  - apply starts_ns_join. inversion H; tauto.
  - apply ends_ns_join; [discriminate|].
    eapply Forall_impl; [|exact H]. cbn. tauto.
Qed.

End ExportLayout.

(** C4 as stated fails: no blank line separates two devices of one
    bucket.  With two iCloud-locked devices the separator line of the
    first is directly followed by the model line of the second. *)
Lemma export_blank_line_between_devices_fails :
  generateExportText [sample_d1; sample_locked2]
  <> export_layout (nl ++ nl) [sample_d1; sample_locked2]
  /\ generateExportText [sample_d1; sample_locked2]
     = lit "*ICLOUD*" ++ nl ++ nl
       ++ lit "IPHONE 11 64GB" ++ nl ++ lit "111111111111111" ++ nl
       ++ lit "===============================" ++ nl
       ++ lit "IPHONE 13" ++ nl ++ lit "444444444444444" ++ nl
       ++ lit "===============================".
Proof.
  split; [|vm_compute; reflexivity].
  vm_compute. discriminate.
Qed.

(** C4, amended.  For every device list the export text is made of one
    section per non-empty bucket, in bucket order, sections separated by
    a blank line; a section is the bucket's header text, a blank line,
    and for each device of the bucket in input order the model
    description with the "-USA" occurrences removed and trimmed, the bare
    IMEI and a line of 31 [=]; the separator line of one device is
    followed directly, after a single newline and with no blank line, by
    the model line of the next.  Empty buckets contribute nothing, and
    nothing is left before the first header or after the last separator
    line. *)
Theorem export_text_layout (devices : list Device) :
  generateExportText devices = export_layout nl devices.
Proof.
  unfold generateExportText, export_layout, buckets, bucket_titles, bucket_preds.
  cbn [map combine concat fst snd].
  change hdr_icloud with (lit "*ICLOUD*" ++ nl ++ nl).
  change hdr_tmobileNonActive with
    ((lit "locked and non active tmoblie with network phone are like this with the device detetils,"
      ++ nl ++ nl ++ lit "*LOCKED N NON ACTIVE T-MOBILE*") ++ nl ++ nl).
  change hdr_tmobileActive with (lit "*LOCKED N ACTIVE T-MOBILE*" ++ nl ++ nl).
  change hdr_lockedOtherNonActive with
    ((lit "locked and non active other network phone are like this with the device detetils,"
      ++ nl ++ nl ++ lit "*LOCKED N NON ACTIVE*") ++ nl ++ nl).
  change hdr_lockedOtherActive with (lit "*LOCKED N ACTIVE*" ++ nl ++ nl).
  change hdr_unlockedNonActive with
    ((lit "unlocked and non active phone are like this with the device detetils,"
      ++ nl ++ nl ++ lit "UNLOCKED N NON ACTIVE") ++ nl ++ nl).
  change hdr_unlockedActive with
    ((lit "unlocked and active phone like this device detetils,"
      ++ nl ++ nl ++ lit "UNLOCKED N ACTIVE") ++ nl ++ nl).
  rewrite !emit_section. cbn [app]. rewrite app_nil_r.
  rewrite <- !concat_app, <- !map_app, <- !app_assoc.
  apply trim_sections.
  repeat (apply Forall_app; split); apply layout_section_good; reflexivity.
Qed.

(** * The query matcher *)

Section Matcher.

Lemma occurs_nil_inv (q : jsstring) : occurs q [] -> q = [].
Proof.
  intros (n & l1 & l2 & E & _). destruct l1; [|discriminate].
  destruct q; [reflexivity | discriminate].
Qed.

Lemma matches_iff (q : jsstring) (d : Device) :
  q <> [] -> (matches q d = true <-> matches_spec q d).
Proof.
  intros Hq. unfold matches, matches_spec. rewrite orb_true_iff, includes_spec.
  split; (intros [H | H]; [now left | right]).
  - destruct (serial d) as [s|]; [|discriminate].
    apply andb_true_iff in H as [_ H]. apply includes_spec in H. eauto.
  - destruct H as (s & -> & H). apply andb_true_iff. split.
    + destruct s; [|reflexivity]. apply occurs_nil_inv in H. contradiction.
    + now apply includes_spec.
Qed.

Lemma set_add_fold_In (x : jsstring) (l acc : list jsstring) :
  In x (fold_left set_add l acc) <-> In x acc \/ In x l.
Proof.
  revert acc; induction l as [|y l IH]; intros acc; cbn [fold_left].
  - cbn. tauto.
  - rewrite IH. unfold set_add. destruct (existsb (str_eqb y) acc) eqn:E.
    + apply existsb_exists in E as (z & Hz & E). apply str_eqb_eq in E. subst z.
      cbn. intuition (subst; auto).
    + rewrite in_app_iff. cbn. tauto.
Qed.

Lemma set_add_fold_NoDup (l acc : list jsstring) :
  NoDup acc -> NoDup (fold_left set_add l acc).
Proof.
  revert acc; induction l as [|y l IH]; intros acc H; cbn [fold_left]; [exact H|].
  apply IH. unfold set_add. destruct (existsb (str_eqb y) acc) eqn:E; [exact H|].
  apply NoDup_app; [exact H | repeat constructor; intros [] |].
  intros x Hx [E' | []]. subst x.
  assert (X : existsb (str_eqb y) acc = true); [|congruence].
  apply existsb_exists. exists y. split; [exact Hx | apply str_eqb_refl].
Qed.

Lemma uniq_In (x : jsstring) (l : list jsstring) : In x (uniq l) <-> In x l.
Proof. unfold uniq. rewrite set_add_fold_In. cbn. tauto. Qed.

Lemma uniq_NoDup (l : list jsstring) : NoDup (uniq l).
Proof. apply set_add_fold_NoDup. constructor. Qed.

Lemma rawQueries_In (q s : jsstring) :
  In q (rawQueries s) <->
  q <> [] /\ exists piece, In piece (split_seps s) /\ q = trim piece.
Proof.
  unfold rawQueries. rewrite filter_In, in_map_iff, truthy_true. split.
  - intros [(piece & <- & H) Hq]. eauto.
  - intros [Hq (piece & H & ->)]. eauto.
Qed.

Lemma dropWhile_nil (f : ascii -> bool) (s : jsstring) :
  dropWhile f s = [] <-> forallb f s = true.
Proof.
  induction s as [|c s IH]; cbn; [tauto|].
  destruct (f c); cbn; [exact IH | split; discriminate].
Qed.

Lemma trim_nil (s : jsstring) : trim s = [] <-> forallb is_space s = true.
Proof.
  unfold trim. split.
  - intros H. apply (f_equal (@rev ascii)) in H. rewrite rev_involutive in H.
    cbn in H. apply dropWhile_nil in H. rewrite forallb_rev in H.
    destruct (dropWhile is_space s) as [|c r] eqn:D; [now apply dropWhile_nil|].
    exfalso. cbn in H. apply andb_true_iff in H as [Hc _].
    clear -D Hc. induction s as [|x s IH]; [discriminate|].
    cbn in D. destruct (is_space x) eqn:X; [auto|]. congruence.
  - intros H. apply dropWhile_nil in H. rewrite H. reflexivity.
Qed.

Lemma split_seps_go_chars (s cur : jsstring) (b : bool) (piece : jsstring) (c : ascii) :
  In piece (split_seps_go cur b s) -> In c piece -> In c cur \/ In c s.
Proof.
  revert cur b; induction s as [|x s IH]; intros cur b; cbn [split_seps_go].
  - intros [<- | []] Hc. left. now apply in_rev.
  - destruct (is_sep x).
    + destruct b.
      * intros Hp Hc. destruct (IH _ _ Hp Hc); [now left | right; now right].
      * intros [<- | Hp] Hc; [left; now apply in_rev|].
        destruct (IH _ _ Hp Hc) as [[] | H]. right; now right.
    + intros Hp Hc. destruct (IH _ _ Hp Hc) as [[<- | H] | H];
        [right; now left | now left | right; now right].
Qed.

(** A query of white space only has no token. *)
Lemma blank_query_no_tokens (s : jsstring) : trim s = [] -> uniqueQueries s = [].
Proof.
  intros H. apply trim_nil in H. rewrite forallb_forall in H.
  assert (R : rawQueries s = []); [|unfold uniqueQueries; now rewrite R].
  destruct (rawQueries s) as [|q l] eqn:E; [reflexivity|]. exfalso.
  assert (Hq : In q (rawQueries s)) by (rewrite E; now left).
  apply rawQueries_In in Hq as [Hq (piece & Hp & ->)]. apply Hq.
  apply trim_nil, forallb_forall. intros c Hc. apply H.
  destruct (split_seps_go_chars s [] false piece c Hp Hc) as [[] | ?]. assumption.
Qed.

Lemma some_match (f : Device -> bool) (l : list Device) :
  (0 <? length (filter f l)) = existsb f l.
Proof.
  induction l as [|d l IH]; cbn [filter existsb]; [reflexivity|].
  destruct (f d); [reflexivity | exact IH].
Qed.

Lemma search_fold (devs : list Device) (qs : list jsstring)
      (m : DeviceMap) (miss : list jsstring) :
  fold_left (search_step devs) qs (m, miss)
  = (insert_all m (all_matches devs qs),
     miss ++ filter (fun q => negb (existsb (matches q) devs)) qs).
Proof.
  revert m miss; induction qs as [|q qs IH]; intros m miss; cbn [fold_left].
  - cbn. now rewrite app_nil_r.
  - unfold search_step at 2. rewrite some_match.
    unfold all_matches, insert_all. cbn [flat_map filter]. rewrite fold_left_app.
    destruct (existsb (matches q) devs) eqn:E; cbn [negb].
    + rewrite IH. reflexivity.
    + rewrite IH, <- app_assoc. cbn [app].
      assert (N : filter (matches q) devs = []).
      { rewrite <- some_match in E. destruct (filter (matches q) devs);
          [reflexivity | discriminate]. }
      rewrite N. reflexivity.
Qed.

Lemma handleBulkSearch_blank (st : AppState) :
  trim (bulkQuery st) = [] ->
  searchResults (handleBulkSearch st) = None
  /\ notFoundQueries (handleBulkSearch st) = [].
Proof.
  intros H. unfold handleBulkSearch. rewrite H. cbn. auto.
Qed.

Lemma handleBulkSearch_run (st : AppState) :
  trim (bulkQuery st) <> [] ->
  searchResults (handleBulkSearch st)
  = Some (map_values (insert_all [] (all_matches (devices st)
                                       (uniqueQueries (bulkQuery st)))))
  /\ notFoundQueries (handleBulkSearch st)
     = filter (fun q => negb (existsb (matches q) (devices st)))
              (uniqueQueries (bulkQuery st)).
Proof.
  intros H. apply truthy_true in H. unfold handleBulkSearch. rewrite H.
  cbn [negb]. rewrite search_fold. cbn. auto.
Qed.

End Matcher.

(** C9.  A token of the query, trimmed and deduplicated, is listed as
    not found if and only if it occurs in the IMEI or serial number of no
    device of the Registry; a token that matches at least one device is
    never listed, whatever the other tokens matched. *)
Theorem not_found_iff_no_match (st : AppState) :
  (forall q, In q (notFoundQueries (handleBulkSearch st)) <->
             In q (uniqueQueries (bulkQuery st))
             /\ forall d, In d (devices st) -> ~ matches_spec q d)
  /\ (forall q d, In d (devices st) -> matches_spec q d ->
                  ~ In q (notFoundQueries (handleBulkSearch st)))
  /\ NoDup (uniqueQueries (bulkQuery st))
  /\ (forall q, In q (uniqueQueries (bulkQuery st)) <->
                q <> [] /\ exists piece, In piece (split_seps (bulkQuery st))
                                         /\ q = trim piece).
Proof.
  assert (M : forall q, In q (notFoundQueries (handleBulkSearch st)) <->
             In q (uniqueQueries (bulkQuery st))
             /\ forall d, In d (devices st) -> ~ matches_spec q d).
  { intros q. destruct (trim (bulkQuery st)) as [|c r] eqn:T.
    - destruct (handleBulkSearch_blank st T) as [_ ->].
      rewrite (blank_query_no_tokens _ T). cbn. tauto.
    - destruct (handleBulkSearch_run st) as [_ ->]; [rewrite T; discriminate|].
      rewrite filter_In, negb_true_iff. split; intros [Hq H]; (split; [exact Hq|]).
      + assert (Hne : q <> []).
        { apply uniq_In, rawQueries_In in Hq. tauto. }
        intros d Hd Hm. apply (matches_iff q d Hne) in Hm.
        assert (X : existsb (matches q) (devices st) = true); [|congruence].
        apply existsb_exists. eauto.
      + assert (Hne : q <> []).
        { apply uniq_In, rawQueries_In in Hq. tauto. }
        destruct (existsb (matches q) (devices st)) eqn:E; [|reflexivity].
        exfalso. apply existsb_exists in E as (d & Hd & Hm).
        apply (matches_iff q d Hne) in Hm. exact (H d Hd Hm). }
  split; [exact M|]. split; [|split].
  - intros q d Hd Hm Hq. apply M in Hq as [_ Hq]. exact (Hq d Hd Hm).
  - apply uniq_NoDup.
  - intros q. unfold uniqueQueries. rewrite uniq_In. apply rawQueries_In.
Qed.

Lemma not_found_iff_no_match_witness :
  notFoundQueries
    (handleBulkSearch
       {| devices := [sample_d1; sample_d3];
          bulkQuery := lit "1111,2222" ++ nl ++ lit "1111";
          searchResults := None;
          notFoundQueries := [];
          icloudAlertDevices := [] |})
  = [lit "2222"]
  /\ ~ In (lit "1111")
       (notFoundQueries
          (handleBulkSearch
             {| devices := [sample_d1; sample_d3];
                bulkQuery := lit "1111,2222" ++ nl ++ lit "1111";
                searchResults := None;
                notFoundQueries := [];
                icloudAlertDevices := [] |})).
Proof.
  split; [vm_compute; reflexivity|].
  destruct (not_found_iff_no_match
              {| devices := [sample_d1; sample_d3];
                 bulkQuery := lit "1111,2222" ++ nl ++ lit "1111";
                 searchResults := None;
                 notFoundQueries := [];
                 icloudAlertDevices := [] |}) as (_ & H & _).
  apply (H (lit "1111") sample_d1).
  - cbn. left. reflexivity.
  - left. apply includes_spec. vm_compute. reflexivity.
Defined.

Section ResultOrder.

Lemma NoDup_map_id_inj (l : list Device) (a b : Device) :
  NoDup (map id l) -> In a l -> In b l -> id a = id b -> a = b.
Proof.
  induction l as [|x l IH]; [intros _ []|]. cbn [map].
  intros N Ha Hb E. inversion N as [|? ? Hx Hl]; subst.
  destruct Ha as [-> | Ha], Hb as [-> | Hb]; auto.
  - exfalso. apply Hx. rewrite E. now apply in_map.
  - exfalso. apply Hx. rewrite <- E. now apply in_map.
Qed.

Lemma map_set_absent (k : jsstring) (v : Device) (m : DeviceMap) :
  existsb (str_eqb k) (map fst m) = false -> map_set k v m = m ++ [(k, v)].
Proof.
  induction m as [|[k' v'] m IH]; cbn; [reflexivity|].
  intros H. apply orb_false_iff in H as [H1 H2].
  assert (X : str_eqb k' k = false).
  { apply str_eqb_neq. apply str_eqb_neq in H1. congruence. }
  rewrite X, IH by exact H2. reflexivity.
Qed.

Lemma map_set_present (k : jsstring) (v : Device) (m : DeviceMap) :
  existsb (str_eqb k) (map fst m) = true ->
  (forall v', In (k, v') m -> v' = v) ->
  map_set k v m = m.
Proof.
  induction m as [|[k' v'] m IH]; cbn; [discriminate|].
  intros H Hv. destruct (str_eqb k' k) eqn:E.
  - apply str_eqb_eq in E. subst k'. now rewrite (Hv v') by now left.
  - f_equal. apply IH.
    + apply orb_true_iff in H as [H | H]; [|exact H].
      apply str_eqb_eq in H. apply str_eqb_neq in E. congruence.
    + intros v0 H0. apply Hv. now right.
Qed.

(** The values of the map after a run of [set] calls: the values already
    there, then the first occurrence of every new id. *)
Lemma insert_all_values (l : list Device) (m : DeviceMap) :
  (forall k v, In (k, v) m -> k = id v) ->
  (forall a b, In a (map snd m ++ l) -> In b (map snd m ++ l) -> id a = id b -> a = b) ->
  map_values (insert_all m l) = map_values m ++ dedup_ids (map fst m) l.
Proof.
  revert m; induction l as [|d l IH]; intros m Hwf Hinj.
  - cbn. now rewrite app_nil_r.
  - unfold insert_all. cbn [fold_left dedup_ids].
    destruct (existsb (str_eqb (id d)) (map fst m)) eqn:E.
    + rewrite map_set_present; [| exact E |].
      * apply IH; [exact Hwf|]. intros a b Ha Hb. apply Hinj;
          rewrite in_app_iff in *; cbn; tauto.
      * intros v' Hv'. apply Hinj.
        -- apply in_app_iff. left. change v' with (snd (id d, v')). now apply in_map.
        -- apply in_app_iff. right. now left.
        -- symmetry. now apply Hwf.
    + rewrite map_set_absent by exact E.
      change (map_values (insert_all (m ++ [(id d, d)]) l)
              = map_values m ++ d :: dedup_ids (map fst m ++ [id d]) l).
      rewrite IH.
      * unfold map_values. rewrite !map_app. cbn. now rewrite <- app_assoc.
      * intros k v Hk. apply in_app_iff in Hk as [Hk | [[= <- <-] | []]]; auto.
      * intros a b Ha Hb. apply Hinj; rewrite map_app, !in_app_iff in *;
          cbn in *; tauto.
Qed.

Lemma dedup_ids_In (seen : list jsstring) (l : list Device) (d : Device) :
  In d (dedup_ids seen l) -> In d l /\ ~ In (id d) seen.
Proof.
  revert seen; induction l as [|x l IH]; intros seen; cbn [dedup_ids]; [intros []|].
  destruct (existsb (str_eqb (id x)) seen) eqn:E.
  - intros H. apply IH in H. cbn. tauto.
  - intros [<- | H].
    + split; [now left|]. intros Hin.
      assert (X : existsb (str_eqb (id x)) seen = true); [|congruence].
      apply existsb_exists. exists (id x). split; [exact Hin | apply str_eqb_refl].
    + apply IH in H as [H1 H2]. split; [now right|].
      intros Hin. apply H2. apply in_app_iff. now left.
Qed.

Lemma dedup_ids_complete (seen : list jsstring) (l : list Device) (d : Device) :
  In d l -> ~ In (id d) seen ->
  exists d', In d' (dedup_ids seen l) /\ id d' = id d.
Proof.
  revert seen; induction l as [|x l IH]; intros seen; [intros []|].
  cbn [dedup_ids]. intros Hd Hs.
  destruct (existsb (str_eqb (id x)) seen) eqn:E.
  - destruct Hd as [-> | Hd]; [|now apply IH].
    exfalso. apply Hs. apply existsb_exists in E as (k & Hk & E).
    apply str_eqb_eq in E. now subst k.
  - destruct (str_eqb (id x) (id d)) eqn:X.
    + apply str_eqb_eq in X. exists x. split; [now left | exact X].
    + destruct Hd as [-> | Hd]; [rewrite str_eqb_refl in X; discriminate|].
      destruct (IH (seen ++ [id x]) Hd) as (d' & H1 & H2).
      * intros H. apply in_app_iff in H as [H | [H | []]]; [contradiction|].
        apply str_eqb_neq in X. contradiction.
      * exists d'. split; [now right | exact H2].
Qed.

Lemma dedup_ids_NoDup (seen : list jsstring) (l : list Device) :
  NoDup (map id (dedup_ids seen l)).
Proof.
  revert seen; induction l as [|x l IH]; intros seen; cbn [dedup_ids map];
    [constructor|].
  destruct (existsb (str_eqb (id x)) seen); [apply IH|].
  cbn [map]. constructor; [|apply IH].
  intros H. apply in_map_iff in H as (d & E & H).
  apply dedup_ids_In in H as [_ H]. apply H. apply in_app_iff. right.
  rewrite E. now left.
Qed.

Lemma all_matches_In (devs : list Device) (tokens : list jsstring) (d : Device) :
  In d (all_matches devs tokens) <->
  In d devs /\ exists q, In q tokens /\ matches q d = true.
Proof.
  unfold all_matches. rewrite in_flat_map. split.
  - intros (q & Hq & H). apply filter_In in H as [H1 H2]. eauto.
  - intros [Hd (q & Hq & H)]. exists q. split; [exact Hq|]. now apply filter_In.
Qed.

End ResultOrder.

(** ** The ids of an extraction pass are pairwise distinct *)

Section Ids.

Lemma show_nat_inj (n m : nat) : show_nat n = show_nat m -> n = m.
Proof.
  unfold show_nat, lit. intros H.
  apply (f_equal string_of_list_ascii) in H.
  rewrite !string_of_list_ascii_of_string in H.
  apply (f_equal NilEmpty.uint_of_string) in H. rewrite !NilEmpty.usu in H.
  apply Some_eq in H. apply (f_equal Nat.of_uint) in H.
  now rewrite !DecimalNat.Unsigned.of_to in H.
Qed.

Lemma id_index (im s : jsstring) :
  length im = 15 -> skipn 16 (im ++ lit "-" ++ s) = s.
Proof.
  intros L. rewrite skipn_app, L, skipn_all2 by lia. reflexivity.
Qed.

Lemma parse_chunk_id (i : nat) (chunk : jsstring) (d : Device) :
  parse_chunk i chunk = Some d -> skipn 16 (id d) = show_nat i.
Proof.
  intros H. apply parse_chunk_Some in H as (im & pre & Him & _ & ->).
  apply imei_prefix_Some in Him as (rest & _ & L & _).
  cbn [id]. now apply id_index.
Qed.

Lemma parse_loop_ids_NoDup (chunks : list jsstring) (i : nat) :
  NoDup (map id (parse_loop i chunks)).
Proof.
  revert i; induction chunks as [|c chunks IH]; intros i; cbn [parse_loop];
    [constructor|].
  destruct (parse_chunk i c) as [d|] eqn:E; [|apply IH].
  cbn [map]. constructor; [|apply IH].
  intros H. apply in_map_iff in H as (d' & Hid & Hd').
  apply parse_loop_In in Hd' as (k & chunk & _ & Hk).
  apply parse_chunk_id in E. apply parse_chunk_id in Hk.
  rewrite Hid, E in Hk. apply show_nat_inj in Hk. lia.
Qed.

Lemma parseSickwHtml_ids_NoDup (html : jsstring) :
  NoDup (map id (parseSickwHtml html)).
Proof. apply parse_loop_ids_NoDup. Qed.

End Ids.

(** C1 as stated fails: the result follows the order in which the tokens
    matched.  The query "3333 1111" lists the second device of the
    Registry before the first. *)
Lemma search_results_registry_order_fails :
  ~ (forall st results,
       NoDup (map id (devices st)) ->
       searchResults (handleBulkSearch st) = Some results ->
       forall i j a b,
         i < j -> nth_error results i = Some a -> nth_error results j = Some b ->
         exists i' j', i' < j' /\ nth_error (devices st) i' = Some a
                       /\ nth_error (devices st) j' = Some b).
Proof.
  intro H.
  assert (N : NoDup (map id (devices sample_search))).
  { cbn. constructor; [intros [E | []]; discriminate E|].
    constructor; [intros [] | constructor]. }
  assert (R : searchResults (handleBulkSearch sample_search)
              = Some [sample_d3; sample_d1]) by (vm_compute; reflexivity).
  destruct (H sample_search _ N R 0 1 sample_d3 sample_d1)
    as (i' & j' & Hlt & Hi & Hj); [lia | reflexivity | reflexivity |].
  cbn [devices sample_search] in Hi, Hj.
  destruct i' as [|[|i']]; cbn in Hi; try discriminate Hi;
    [|destruct i'; discriminate Hi].
  destruct j' as [|[|j']]; cbn in Hj; try discriminate Hj; try lia.
  destruct j'; discriminate Hj.
Qed.

(** C1, amended.  For a Registry whose ids are pairwise distinct, the
    matched result list is the union of all per-token matches
    deduplicated by device id, in order of first insertion: the tokens are
    taken in the order of the deduplicated query, each token contributes
    its matches in Registry order, and a device already listed keeps its
    place.  The order is the Registry order only within the matches of one
    token. *)
Theorem search_results_first_match_order (st : AppState) :
  NoDup (map id (devices st)) ->
  trim (bulkQuery st) <> [] ->
  exists results,
    searchResults (handleBulkSearch st) = Some results
    /\ results = dedup_ids [] (all_matches (devices st) (uniqueQueries (bulkQuery st)))
    /\ NoDup (map id results)
    /\ (forall d, In d results <->
                  In d (devices st)
                  /\ exists q, In q (uniqueQueries (bulkQuery st)) /\ matches_spec q d).
Proof.
  intros N T. destruct (handleBulkSearch_run st T) as [R _].
  set (tokens := uniqueQueries (bulkQuery st)) in *.
  assert (Hinj : forall a b, In a (all_matches (devices st) tokens) ->
                             In b (all_matches (devices st) tokens) ->
                             id a = id b -> a = b).
  { intros a b Ha Hb. apply all_matches_In in Ha as [Ha _].
    apply all_matches_In in Hb as [Hb _]. now apply NoDup_map_id_inj with (l := devices st). }
  exists (dedup_ids [] (all_matches (devices st) tokens)).
  split; [|split; [reflexivity | split; [apply dedup_ids_NoDup|]]].
  - rewrite R. f_equal.
    rewrite (insert_all_values (all_matches (devices st) tokens) []);
      [reflexivity | intros k v [] | exact Hinj].
  - assert (Hne : forall q, In q tokens -> q <> []).
    { intros q Hq. apply uniq_In, rawQueries_In in Hq. tauto. }
    intros d. split.
    + intros H. apply dedup_ids_In in H as [H _].
      apply all_matches_In in H as [Hd (q & Hq & Hm)].
      split; [exact Hd|]. exists q. split; [exact Hq|].
      now apply (matches_iff q d (Hne q Hq)).
    + intros [Hd (q & Hq & Hm)].
      assert (Ha : In d (all_matches (devices st) tokens)).
      { apply all_matches_In. split; [exact Hd|]. exists q. split; [exact Hq|].
        now apply (matches_iff q d (Hne q Hq)). }
      destruct (dedup_ids_complete [] _ d Ha) as (d' & H1 & H2); [intros []|].
      assert (d' = d); [|now subst].
      apply Hinj; [|exact Ha | exact H2].
      now apply dedup_ids_In in H1 as [H1 _].
Qed.

Lemma search_results_first_match_order_witness :
  exists results,
    searchResults (handleBulkSearch sample_search) = Some results
    /\ results = [sample_d3; sample_d1].
Proof.
  destruct (search_results_first_match_order sample_search)
    as (results & H1 & H2 & _).
  - cbn. constructor; [intros [E | []]; discriminate E|].
    constructor; [intros [] | constructor].
  - vm_compute. discriminate.
  - exists results. split; [exact H1|]. rewrite H2. vm_compute. reflexivity.
Defined.

(** * Cleaned text holds no tag and no outer white space *)

Section Cleaning.

Lemma tag_tail_gt (r : jsstring) : tag_tail (">"%char :: r) = None.
Proof. reflexivity. Qed.

Lemma tag_tail_no_gt (s : jsstring) : ~ In ">"%char s -> tag_tail s = None.
Proof.
  induction s as [|c s IH]; [reflexivity|]. intros H. cbn [tag_tail].
  destruct (Ascii.eqb c ">"); [reflexivity|].
  destruct s as [|c' s']; [reflexivity|].
  destruct (Ascii.eqb c' ">") eqn:E.
  - exfalso. apply H. right. left. symmetry. now apply Ascii.eqb_eq.
  - rewrite IH; [reflexivity|]. intros Hin. apply H. now right.
Qed.

Lemma tag_tail_None (s : jsstring) :
  tag_tail s = None -> (exists r, s = ">"%char :: r) \/ ~ In ">"%char s.
Proof.
  induction s as [|c s IH]; [intros _; right; intros []|]. cbn [tag_tail].
  destruct (Ascii.eqb c ">") eqn:E.
  - apply Ascii.eqb_eq in E. subst c. intros _. left. now exists s.
  - apply Ascii.eqb_neq in E. destruct s as [|c' s'].
    + intros _. right. intros [H | []]. congruence.
    + destruct (Ascii.eqb c' ">") eqn:E'; [discriminate|].
      apply Ascii.eqb_neq in E'. intros H.
      destruct (tag_tail (c' :: s')) eqn:T; [discriminate|].
      destruct (IH eq_refl) as [(r & Hr) | Hn].
      * congruence.
      * right. intros [H1 | H1]; [congruence | contradiction].
Qed.

Lemma tag_tail_body (body rest : jsstring) :
  body <> [] -> ~ In ">"%char body ->
  tag_tail (body ++ ">"%char :: rest) = Some (length body + 1).
Proof.
  induction body as [|c body IH]; [congruence|]. intros _ H.
  cbn [app tag_tail length].
  assert (Hc : Ascii.eqb c ">" = false).
  { apply Ascii.eqb_neq. intros ->. apply H. now left. }
  rewrite Hc. destruct body as [|c' body'].
  - cbn. reflexivity.
  - cbn [app].
    assert (Hc' : Ascii.eqb c' ">" = false).
    { apply Ascii.eqb_neq. intros ->. apply H. right. now left. }
    rewrite Hc'. change (c' :: body' ++ ">"%char :: rest)
      with ((c' :: body') ++ ">"%char :: rest).
    rewrite IH; [reflexivity | discriminate |].
    intros Hin. apply H. now right.
Qed.

Lemma tag_tail_Some (s : jsstring) (n : nat) :
  tag_tail s = Some n ->
  exists body rest, s = body ++ ">"%char :: rest /\ body <> []
                    /\ ~ In ">"%char body /\ n = length body + 1.
Proof.
  revert n; induction s as [|c s IH]; intros n; [discriminate|]. cbn [tag_tail].
  destruct (Ascii.eqb c ">") eqn:E; [discriminate|]. apply Ascii.eqb_neq in E.
  destruct s as [|c' s']; [discriminate|].
  destruct (Ascii.eqb c' ">") eqn:E'.
  - apply Ascii.eqb_eq in E'. subst c'. intros [= <-].
    exists [c], s'. split; [reflexivity|]. split; [discriminate|].
    split; [|reflexivity]. intros [H | []]. congruence.
  - destruct (tag_tail (c' :: s')) as [k|] eqn:T; [|discriminate].
    cbn. intros [= <-].
    destruct (IH k eq_refl) as (body & rest & Hs & _ & Hb & ->).
    exists (c :: body), rest. rewrite Hs. split; [reflexivity|].
    split; [discriminate|]. split; [|cbn; lia].
    intros [H | H]; [congruence | contradiction].
Qed.

Lemma no_tag_tag_free (s : jsstring) : no_tag s = true <-> tag_free s.
Proof.
  split.
  - intros H l1 t l2 (body & -> & Hb & Hn) E. subst s.
    induction l1 as [|c l1 IH].
    + cbn in H. rewrite <- app_assoc in H. cbn [app] in H.
      rewrite (tag_tail_body body l2 Hb Hn) in H. discriminate.
    + cbn [app no_tag] in H. apply andb_true_iff in H as [_ H]. auto.
  - intros H. induction s as [|c s IH]; [reflexivity|]. cbn [no_tag].
    apply andb_true_iff. split.
    + destruct (Ascii.eqb c "<") eqn:E; [|reflexivity].
      apply Ascii.eqb_eq in E. subst c.
      destruct (tag_tail s) as [n|] eqn:T; [|reflexivity]. exfalso.
      apply tag_tail_Some in T as (body & rest & -> & Hb & Hn & _).
      apply (H [] ("<"%char :: body ++ [">"%char]) rest).
      * now exists body.
      * cbn. now rewrite <- app_assoc.
    + apply IH. intros l1 t l2 Ht E. apply (H (c :: l1) t l2 Ht). now rewrite E.
Qed.

Lemma tag_free_sub (a m b : jsstring) : tag_free (a ++ m ++ b) -> tag_free m.
Proof.
  intros H l1 t l2 Ht E. apply (H (a ++ l1) t (l2 ++ b) Ht).
  rewrite E. now rewrite <- !app_assoc.
Qed.

Lemma strip_tags_go_In (c : ascii) (s : jsstring) (n : nat) :
  In c (strip_tags_go n s) -> In c s.
Proof.
  revert n; induction s as [|x s IH]; intros n; cbn [strip_tags_go]; [intros []|].
  destruct n as [|k]; [|intros H; right; eauto].
  destruct (Ascii.eqb x "<").
  - destruct (tag_tail s) as [m|].
    + intros H; right; eauto.
    + intros [<- | H]; [now left | right; eauto].
  - intros [<- | H]; [now left | right; eauto].
Qed.

Lemma strip_tags_go_no_tag (s : jsstring) (n : nat) :
  no_tag (strip_tags_go n s) = true.
Proof.
  revert n; induction s as [|x s IH]; intros n; cbn [strip_tags_go]; [reflexivity|].
  destruct n as [|k]; [|apply IH].
  destruct (Ascii.eqb x "<") eqn:E.
  - destruct (tag_tail s) as [m|] eqn:T; [apply IH|].
    cbn [no_tag]. rewrite E, IH, andb_true_r.
    replace (tag_tail (strip_tags_go 0 s)) with (@None nat); [reflexivity|].
    symmetry. apply tag_tail_None in T as [(r & ->) | Hn].
    + reflexivity.
    + apply tag_tail_no_gt. intros H. apply Hn. now apply strip_tags_go_In in H.
  - cbn [no_tag]. rewrite E, IH. reflexivity.
Qed.

Lemma no_tag_tail (c : ascii) (s : jsstring) : no_tag (c :: s) = true -> no_tag s = true.
Proof. cbn [no_tag]. intros H. now apply andb_true_iff in H. Qed.

Lemma no_tag_app_plain (r s : jsstring) :
  ~ In "<"%char r -> no_tag s = true -> no_tag (r ++ s) = true.
Proof.
  induction r as [|c r IH]; [auto|]. intros H Hs. cbn [app no_tag].
  assert (E : Ascii.eqb c "<" = false).
  { apply Ascii.eqb_neq. intros ->. apply H. now left. }
  rewrite E, IH; auto. intros Hin. apply H. now right.
Qed.

(** Replacing a text that holds no bracket by another such text makes
    no tag. *)
Lemma replaceAll_go_In (pat rep : jsstring) (c : ascii) (s : jsstring) (n : nat) :
  In c (replaceAll_go pat rep n s) -> In c rep \/ In c s.
Proof.
  revert n; induction s as [|x s IH]; intros n; cbn [replaceAll_go]; [intros []|].
  destruct n as [|k].
  - destruct (startsWith pat (x :: s)).
    + intros H. apply in_app_iff in H as [H | H]; [now left|].
      destruct (IH _ H); [now left | right; now right].
    + intros [<- | H]; [right; now left|].
      destruct (IH _ H); [now left | right; now right].
  - intros H. destruct (IH _ H); [now left | right; now right].
Qed.

Lemma replaceAll_go_no_tag (a : ascii) (pat rep s : jsstring) (n : nat) :
  a <> "<"%char -> a <> ">"%char ->
  ~ In "<"%char rep -> ~ In ">"%char rep ->
  no_tag s = true -> no_tag (replaceAll_go (a :: pat) rep n s) = true.
Proof.
  intros Ha1 Ha2 Hr1 Hr2. revert n; induction s as [|x s IH]; intros n Hs;
    cbn [replaceAll_go]; [reflexivity|].
  pose proof (no_tag_tail _ _ Hs) as Hs'.
  destruct n as [|k]; [|now apply IH].
  destruct (startsWith (a :: pat) (x :: s)) eqn:E.
  - apply no_tag_app_plain; [exact Hr1 | now apply IH].
  - cbn [no_tag]. rewrite IH by exact Hs'. rewrite andb_true_r.
    destruct (Ascii.eqb x "<") eqn:X; [|reflexivity].
    cbn [no_tag] in Hs. rewrite X in Hs. apply andb_true_iff in Hs as [Hs _].
    destruct (tag_tail s) eqn:T; [discriminate|].
    replace (tag_tail (replaceAll_go (a :: pat) rep 0 s)) with (@None nat);
      [reflexivity|].
    symmetry. apply tag_tail_None in T as [(r & ->) | Hn].
    + cbn [replaceAll_go startsWith].
      assert (Q : Ascii.eqb a ">" = false) by now apply Ascii.eqb_neq.
      rewrite Q. reflexivity.
    + apply tag_tail_no_gt. intros H.
      apply replaceAll_go_In in H as [H | H]; contradiction.
Qed.

Lemma dropWhile_suffix (f : ascii -> bool) (s : jsstring) :
  exists a, s = a ++ dropWhile f s /\ forallb f a = true.
Proof.
  induction s as [|c s (a & E & Ha)]; [now exists []|]. cbn [dropWhile].
  destruct (f c) eqn:F.
  - exists (c :: a). cbn. rewrite F, Ha. split; [now rewrite <- E | reflexivity].
  - now exists [].
Qed.

(** [trim] cuts white space off the two ends. *)
Lemma trim_sub (s : jsstring) :
  exists a b, s = a ++ trim s ++ b
              /\ forallb is_space a = true /\ forallb is_space b = true.
Proof.
  unfold trim. destruct (dropWhile_suffix is_space s) as (a & Ea & Ha).
  destruct (dropWhile_suffix is_space (rev (dropWhile is_space s))) as (b & Eb & Hb).
  exists a, (rev b). rewrite forallb_rev. repeat split; auto.
  rewrite <- rev_app_distr, <- Eb, rev_involutive. exact Ea.
Qed.

Lemma dropWhile_head (f : ascii -> bool) (s : jsstring) :
  match dropWhile f s with
  | [] => True
  | c :: _ => f c = false
  end.
Proof.
  induction s as [|c s IH]; [exact I|]. cbn [dropWhile].
  destruct (f c) eqn:F; [exact IH | exact F].
Qed.

Lemma trim_trimmed (s : jsstring) : trimmed (trim s).
Proof.
  unfold trimmed, trim.
  destruct (dropWhile is_space (rev (dropWhile is_space s))) as [|z t] eqn:D;
    [now left | right].
  pose proof (dropWhile_head is_space (rev (dropWhile is_space s))) as Hz.
  rewrite D in Hz. split.
  - destruct (dropWhile_suffix is_space (rev (dropWhile is_space s))) as (b & Eb & _).
    rewrite D in Eb. apply (f_equal (@rev ascii)) in Eb.
    rewrite rev_involutive, rev_app_distr in Eb.
    pose proof (dropWhile_head is_space s) as Hh. rewrite Eb in Hh.
    destruct (rev (z :: t)) as [|x r] eqn:R.
    + apply (f_equal (@length ascii)) in R. rewrite length_rev in R. discriminate.
    + exact Hh.
  - unfold ends_ns. rewrite rev_involutive. exact Hz.
Qed.

Lemma trimmed_fix (s : jsstring) : trimmed s -> trim s = s.
Proof.
  intros [-> | [H1 H2]]; [reflexivity|].
  rewrite <- (app_nil_r s) at 1. now apply trim_padded.
Qed.

Lemma clean_tag_free (s : jsstring) :
  tag_free (trim (replaceAll (lit "&nbsp;") (lit " ") (strip_tags s))).
Proof.
  destruct (trim_sub (replaceAll (lit "&nbsp;") (lit " ") (strip_tags s)))
    as (a & b & E & _).
  apply (tag_free_sub a _ b). rewrite <- E. apply no_tag_tag_free.
  unfold replaceAll. apply (replaceAll_go_no_tag "&"%char (lit "nbsp;") (lit " ")).
  - discriminate.
  - discriminate.
  - intros [H | []]. discriminate H.
  - intros [H | []]. discriminate H.
  - apply strip_tags_go_no_tag.
Qed.

End Cleaning.

(** X1.  Whatever the block and the label, a value returned by
    [getValue] holds no markup tag: no opening bracket in it is followed
    by one or more characters other than the closing bracket and then a
    closing bracket. *)
Theorem getValue_tag_free (preContent key : jsstring) :
  tag_free (getValue preContent key).
Proof.
  unfold getValue. destruct (indexOf (key ++ lit ":") preContent 0) as [idx|].
  - apply clean_tag_free.
  - intros l1 t l2 (body & -> & _) E. destruct l1; discriminate E.
Qed.

(** X2.  A value returned by [getValue] is trimmed: it is empty, or it
    begins and ends with a character that is no white space, so trimming
    it again changes nothing; a field followed by white space only is
    therefore the empty string, the same as a missing label. *)
Theorem getValue_trimmed (preContent key : jsstring) :
  trimmed (getValue preContent key)
  /\ trim (getValue preContent key) = getValue preContent key.
Proof.
  assert (T : trimmed (getValue preContent key)).
  { unfold getValue. destruct (indexOf (key ++ lit ":") preContent 0) as [idx|].
    - apply trim_trimmed.
    - now left. }
  split; [exact T | now apply trimmed_fix].
Qed.

(** X3.  The text [getCleanDeviceDetails] shows for a raw block holds no
    markup tag and no white space at either end. *)
Theorem getCleanDeviceDetails_clean (rawHtml : jsstring) :
  tag_free (getCleanDeviceDetails rawHtml)
  /\ trimmed (getCleanDeviceDetails rawHtml).
Proof.
  split; [apply clean_tag_free | apply trim_trimmed].
Qed.

(** * Segments of the report *)

Section Segments.

Lemma split_go_no_sep (sep s cur : jsstring) :
  (forall m, ~ occurs_at sep s m) -> split_go sep 0 cur s = [rev cur ++ s].
Proof.
  revert cur; induction s as [|c s IH]; intros cur H; cbn [split_go].
  - now rewrite app_nil_r.
  - destruct (startsWith sep (c :: s)) eqn:E.
    + exfalso. apply (H 0). now apply occurs_at_0.
    + rewrite IH.
      * cbn [rev]. now rewrite <- app_assoc.
      * intros m Hm. apply (H (S m)). now apply occurs_at_S.
Qed.

Lemma split_go_skip (sep l b cur : jsstring) :
  split_go sep (length l) cur (l ++ b) = split_go sep 0 cur b.
Proof.
  induction l as [|x l IH]; [reflexivity|]. cbn [length app split_go]. exact IH.
Qed.

(** The text up to the first separator is the first piece. *)
Lemma split_go_first (sep a b cur : jsstring) :
  sep <> [] ->
  (forall m, occurs_at sep (a ++ sep ++ b) m -> length a <= m) ->
  split_go sep 0 cur (a ++ sep ++ b) = (rev cur ++ a) :: split_go sep 0 [] b.
Proof.
  intros Hsep. revert cur; induction a as [|x a IH]; intros cur H.
  - destruct sep as [|c sep']; [congruence|]. cbn [app].
    cbn [split_go].
    assert (S1 : startsWith (c :: sep') (c :: sep' ++ b) = true)
      by (apply (startsWith_app (c :: sep') b)).
    rewrite S1. rewrite app_nil_r. f_equal.
    replace (length (c :: sep') - 1) with (length sep') by (cbn [length]; lia).
    apply split_go_skip.
  - cbn [app split_go].
    destruct (startsWith sep (x :: a ++ sep ++ b)) eqn:E.
    + exfalso. apply occurs_at_0 in E. apply H in E. cbn in E. lia.
    + rewrite IH.
      * cbn [rev]. now rewrite <- app_assoc.
      * intros m Hm. apply (proj2 (occurs_at_S sep x _ m)) in Hm.
        apply H in Hm. cbn in Hm. lia.
Qed.

Lemma occurs_In_last (p : jsstring) (c : ascii) (s : jsstring) :
  occurs (p ++ [c]) s -> In c s.
Proof.
  intros (n & l1 & l2 & -> & _). rewrite !in_app_iff. right. left. right. now left.
Qed.

End Segments.

(** X4.  A document that does not hold the marker [<b>IMEI: </b>], the
    empty document included, yields no device. *)
Theorem parse_without_marker (html : jsstring) :
  ~ occurs imei_marker html -> parseSickwHtml html = [].
Proof.
  intros H. unfold parseSickwHtml, split.
  rewrite split_go_no_sep; [reflexivity|].
  intros m Hm. apply H. now exists m.
Qed.

Lemma parse_without_marker_witness :
  parseSickwHtml (lit "<html><b>IMEI:</b>111111111111111<pre></pre></html>") = [].
Proof.
  apply parse_without_marker. rewrite <- includes_spec. vm_compute. discriminate.
Defined.

(** X5.  Whatever precedes the first marker is ignored: the devices of
    a document are those of the document cut at its first marker, with
    the same ids. *)
Theorem parse_ignores_preamble (a b : jsstring) :
  find imei_marker (a ++ imei_marker ++ b) = Some (length a) ->
  parseSickwHtml (a ++ imei_marker ++ b) = parseSickwHtml (imei_marker ++ b)
  /\ parseSickwHtml (a ++ imei_marker ++ b) = parse_loop 1 (split imei_marker b).
Proof.
  intros F. apply find_sound in F as [_ Hmin].
  assert (E : forall x, (forall m, occurs_at imei_marker (x ++ imei_marker ++ b) m ->
                                   length x <= m) ->
                        parseSickwHtml (x ++ imei_marker ++ b)
                        = parse_loop 1 (split imei_marker b)).
  { intros x Hx. unfold parseSickwHtml, split.
    rewrite split_go_first; [reflexivity | discriminate | exact Hx]. }
  split; [|now apply E].
  rewrite (E a Hmin). symmetry. apply (E []). intros m _. cbn. lia.
Qed.

Lemma parse_ignores_preamble_witness :
  parseSickwHtml (lit "<html><body>" ++ imei_marker ++ sample_chunk3)
  = parseSickwHtml (imei_marker ++ sample_chunk3).
Proof.
  apply (parse_ignores_preamble (lit "<html><body>") sample_chunk3).
  vm_compute. reflexivity.
Defined.

(** X6.  The ids of one extraction pass are pairwise distinct, also
    when an IMEI is repeated in the document: the id of a device is its
    IMEI, a dash and the decimal index of its segment, counted from 1. *)
Theorem parse_ids_distinct (html : jsstring) :
  NoDup (map id (parseSickwHtml html))
  /\ forall d, In d (parseSickwHtml html) ->
       exists k chunk,
         1 <= k /\ nth_error (split imei_marker html) k = Some chunk
         /\ parse_chunk k chunk = Some d
         /\ id d = imei d ++ lit "-" ++ show_nat k.
Proof.
  split; [apply parse_loop_ids_NoDup|].
  intros d Hd. apply parseSickwHtml_In in Hd as (k & chunk & Hk & Hn & Hp).
  exists k, chunk. repeat split; auto.
  apply parse_chunk_Some in Hp as (im & pre & _ & _ & ->). reflexivity.
Qed.

Lemma parse_ids_distinct_witness :
  exists k, id sample_d3 = imei sample_d3 ++ lit "-" ++ show_nat k.
Proof.
  destruct (parse_ids_distinct sample_html) as [_ H].
  destruct (H sample_d3) as (k & chunk & _ & _ & _ & E).
  - vm_compute. right. left. reflexivity.
  - exists k. exact E.
Defined.

(** X7.  A device whose preformatted block holds no colon has none of
    the nine labels: its model description and its optional fields are
    empty strings, its group is Other and it is not active. *)
Theorem parse_block_without_labels (html : jsstring) (d : Device) :
  In d (parseSickwHtml html) -> ~ In ":"%char (rawText d) ->
  modelDesc d = [] /\ imei2 d = Some [] /\ serial d = Some []
  /\ warrantyStatus d = Some [] /\ icloudLock d = Some []
  /\ carrier d = Some [] /\ simLock d = Some []
  /\ estPurchaseDate d = Some [] /\ activationStatus d = Some []
  /\ group d = Other /\ isActive d = false.
Proof.
  intros Hd Hc. apply parseSickwHtml_In in Hd as (k & chunk & _ & _ & Hp).
  apply parse_chunk_Some in Hp as (im & pre & _ & _ & ->).
  cbn [rawText] in Hc.
  assert (G : forall key, getValue pre key = []).
  { intros key. apply getValue_absent. intros H. apply Hc.
    now apply occurs_In_last in H. }
  cbn [modelDesc imei2 serial warrantyStatus icloudLock carrier simLock
       estPurchaseDate activationStatus group isActive].
  rewrite !G. repeat split; reflexivity.
Qed.

Lemma parse_block_without_labels_witness :
  parseSickwHtml (imei_marker ++ lit "555555555555555<pre>no data</pre>")
  = [ {| id := lit "555555555555555-1"; imei := lit "555555555555555";
         imei2 := Some []; modelDesc := []; serial := Some [];
         warrantyStatus := Some []; icloudLock := Some []; carrier := Some [];
         simLock := Some []; estPurchaseDate := Some []; activationStatus := Some [];
         rawText := lit "no data"; group := Other; isActive := false |} ]
  /\ group {| id := lit "555555555555555-1"; imei := lit "555555555555555";
         imei2 := Some []; modelDesc := []; serial := Some [];
         warrantyStatus := Some []; icloudLock := Some []; carrier := Some [];
         simLock := Some []; estPurchaseDate := Some []; activationStatus := Some [];
         rawText := lit "no data"; group := Other; isActive := false |} = Other.
Proof.
  split; [vm_compute; reflexivity|].
  apply (parse_block_without_labels
           (imei_marker ++ lit "555555555555555<pre>no data</pre>")).
  - vm_compute. left. reflexivity.
  - vm_compute. intros H.
    repeat (destruct H as [H | H]; [discriminate H|]). exact H.
Defined.

(** * Views of the Registry *)

Section Views.

Lemma gmap_of_ext (f f' : Group -> list Device) :
  (forall g, f g = f' g) -> gmap_of f = gmap_of f'.
Proof.
  intros H. unfold gmap_of. apply map_ext. intros g. now rewrite H.
Qed.

Lemma gmap_get_of (f : Group -> list Device) (g : Group) :
  gmap_get (group_name g) (gmap_of f) = Some (f g).
Proof. destruct g; reflexivity. Qed.

Lemma group_step_of (f : Group -> list Device) (d : Device) :
  group_step (gmap_of f) d
  = gmap_of (fun g => f g ++ (if group_eqb (group d) g then [d] else [])).
Proof.
  unfold group_step. rewrite gmap_get_of.
  unfold gmap_of, group_order. cbn [map].
  destruct (group d); cbn [group_eqb]; rewrite ?app_nil_r; reflexivity.
Qed.

Lemma group_fold_of (devs : list Device) (f : Group -> list Device) :
  fold_left group_step devs (gmap_of f) = gmap_of (fun g => f g ++ devices_of g devs).
Proof.
  revert f; induction devs as [|d devs IH]; intros f; cbn [fold_left].
  - apply gmap_of_ext. intros g. cbn. now rewrite app_nil_r.
  - rewrite group_step_of, IH. apply gmap_of_ext. intros g.
    unfold devices_of. cbn [filter]. rewrite <- app_assoc.
    destruct (group_eqb (group d) g); reflexivity.
Qed.

Lemma groups_eq (devs : list Device) :
  groups devs
  = filter (fun cg => 0 <? CarrierGroup.count cg)
           (map (fun g => CarrierGroup.mk (group_name g) (devices_of g devs)
                                          (length (devices_of g devs)))
                group_order).
Proof.
  unfold groups. change gmap_init with (gmap_of (fun _ => [])).
  rewrite group_fold_of. change sortOrder with (map group_name group_order).
  rewrite map_map. apply f_equal. apply map_ext. intros g.
  now rewrite gmap_get_of.
Qed.

Lemma group_name_eqb (a b : Group) :
  str_eqb (group_name a) (group_name b) = group_eqb a b.
Proof. destruct a, b; reflexivity. Qed.

Lemma one_group (d : Device) :
  length (filter (fun p => p d)
                 (map (fun g (x : Device) => group_eqb (group x) g) group_order)) = 1.
Proof. cbn [group_order map filter]. destruct (group d); reflexivity. Qed.

Lemma concat_nonempty (l : list CarrierGroup.t) :
  (forall cg, In cg l -> CarrierGroup.count cg = length (CarrierGroup.devices cg)) ->
  concat (map CarrierGroup.devices (filter (fun cg => 0 <? CarrierGroup.count cg) l))
  = concat (map CarrierGroup.devices l).
Proof.
  induction l as [|cg l IH]; [reflexivity|]. intros H. cbn [filter map concat].
  destruct (0 <? CarrierGroup.count cg) eqn:E; cbn [map concat].
  - rewrite IH; [reflexivity|]. intros x Hx. apply H. now right.
  - rewrite IH by (intros x Hx; apply H; now right).
    apply Nat.ltb_ge in E. rewrite (H cg) in E by now left.
    destruct (CarrierGroup.devices cg); [reflexivity | cbn in E; lia].
Qed.

Lemma filter_split_length {A : Type} (f : A -> bool) (l : list A) :
  length (filter f l) + length (filter (fun x => negb (f x)) l) = length l.
Proof.
  induction l as [|x l IH]; [reflexivity|]. cbn [filter].
  destruct (f x); cbn [negb length]; lia.
Qed.

End Views.

(** X8.  The [groups] memo lists, in the order Unlocked, T-Mobile/Sprint,
    AT&T, Verizon, Other, one entry for every carrier group that has a
    device: its devices are the devices of the Registry with that group,
    in Registry order, its count is their number, and a group without a
    device is left out. *)
Theorem groups_by_carrier (devs : list Device) :
  groups devs
  = filter (fun cg => 0 <? CarrierGroup.count cg)
           (map (fun g => CarrierGroup.mk (group_name g) (devices_of g devs)
                                          (length (devices_of g devs)))
                group_order)
  /\ (forall cg, In cg (groups devs) <->
        exists g, cg = CarrierGroup.mk (group_name g) (devices_of g devs)
                                       (length (devices_of g devs))
                  /\ exists d, In d devs /\ group d = g).
Proof.
  split; [apply groups_eq|]. intros cg. rewrite groups_eq, filter_In, in_map_iff.
  assert (N : forall g, (0 <? length (devices_of g devs)) = true
                        <-> exists d, In d devs /\ group d = g).
  { intros g. rewrite Nat.ltb_lt. unfold devices_of. split.
    - intros H. destruct (filter (fun d => group_eqb (group d) g) devs) as [|d l] eqn:F;
        [cbn in H; lia|].
      assert (Hd : In d (filter (fun d => group_eqb (group d) g) devs))
        by (rewrite F; now left).
      apply filter_In in Hd as [Hd Hg]. exists d. split; [exact Hd|].
      destruct (group d), g; try discriminate; reflexivity.
    - intros (d & Hd & Hg).
      assert (Hin : In d (filter (fun d => group_eqb (group d) g) devs)).
      { apply filter_In. split; [exact Hd|]. rewrite Hg. destruct g; reflexivity. }
      destruct (filter (fun d => group_eqb (group d) g) devs); [destruct Hin|].
      cbn. lia. }
  split.
  - intros [(g & <- & _) H]. cbn [CarrierGroup.count] in H.
    exists g. split; [reflexivity|]. now apply N.
  - intros (g & -> & H). cbn [CarrierGroup.count]. split.
    + exists g. split; [reflexivity|]. destruct g; cbn; auto 6.
    + now apply N.
Qed.

(** X9.  The entries of [groups] partition the Registry: put together
    their device lists are a rearrangement of the Registry, so every device
    is shown under exactly one carrier group and the counts add up to the
    number of devices; every entry has at least one device. *)
Theorem groups_partition (devs : list Device) :
  Permutation (concat (map CarrierGroup.devices (groups devs))) devs
  /\ list_sum (map CarrierGroup.count (groups devs)) = length devs
  /\ Forall (fun cg => 0 < CarrierGroup.count cg
                       /\ CarrierGroup.count cg = length (CarrierGroup.devices cg))
            (groups devs).
Proof.
  assert (P : Permutation (concat (map CarrierGroup.devices (groups devs))) devs).
  { rewrite groups_eq, concat_nonempty.
    - rewrite map_map. cbn [CarrierGroup.devices].
      pose proof (concat_filter_perm
                    (map (fun g (x : Device) => group_eqb (group x) g) group_order)
                    devs one_group) as H.
      rewrite map_map in H. exact H.
    - intros cg H. apply in_map_iff in H as (g & <- & _). reflexivity. }
  assert (F : Forall (fun cg => 0 < CarrierGroup.count cg
                       /\ CarrierGroup.count cg = length (CarrierGroup.devices cg))
            (groups devs)).
  { rewrite groups_eq. apply Forall_forall. intros cg H.
    apply filter_In in H as [H Hc]. apply Nat.ltb_lt in Hc. split; [exact Hc|].
    apply in_map_iff in H as (g & <- & _). reflexivity. }
  split; [exact P|]. split; [|exact F].
  rewrite <- (Permutation_length P), length_concat, map_map. f_equal.
  apply map_ext_in. intros cg H. rewrite Forall_forall in F. now apply F.
Qed.

(** X10.  Copying a group listed by [groups] puts on the clipboard one
    line per device of that entry, in the entry's order, made of the model
    description, a space and the IMEI; a name that is no group name copies
    the empty text. *)
Theorem copyGroup_lists_group (devs : list Device) :
  (forall cg, In cg (groups devs) ->
     copyGroup devs (CarrierGroup.name cg)
     = join nl (map (fun d => modelDesc d ++ lit " " ++ imei d)
                    (CarrierGroup.devices cg)))
  /\ (forall groupName, (forall g, groupName <> group_name g) ->
        copyGroup devs groupName = []).
Proof.
  split.
  - intros cg H. rewrite groups_eq in H. apply filter_In in H as [H _].
    apply in_map_iff in H as (g & <- & _).
    cbn [CarrierGroup.name CarrierGroup.devices]. unfold copyGroup, devices_of.
    do 2 f_equal. apply filter_ext. intros d. apply group_name_eqb.
  - intros groupName H. unfold copyGroup.
    replace (filter (fun d => str_eqb (group_name (group d)) groupName) devs)
      with (@nil Device); [reflexivity|].
    symmetry. induction devs as [|d devs IH]; [reflexivity|]. cbn [filter].
    destruct (str_eqb (group_name (group d)) groupName) eqn:E; [|exact IH].
    apply str_eqb_eq in E. exfalso. exact (H (group d) (eq_sym E)).
Qed.

Lemma copyGroup_lists_group_witness :
  copyGroup [sample_d1; sample_d3] (lit "Unlocked")
  = lit "IPHONE 12 PRO 333333333333333"
  /\ copyGroup [sample_d1; sample_d3] (lit "unlocked") = [].
Proof.
  destruct (copyGroup_lists_group [sample_d1; sample_d3]) as [H1 H2]. split.
  - specialize (H1 (CarrierGroup.mk (lit "Unlocked") [sample_d3] 1)).
    cbn [CarrierGroup.name CarrierGroup.devices] in H1.
    rewrite H1; [reflexivity | vm_compute; left; reflexivity].
  - apply H2. intros g. destruct g; discriminate.
Defined.

(** X11.  In [stats] the inactive count, computed as the total minus the
    active count, is the number of devices that are not active; it is
    never negative and the three numbers add up. *)
Theorem stats_counts (devs : list Device) :
  inactiveCount (stats devs)
  = Z.of_nat (length (filter (fun d => negb (isActive d)) devs))
  /\ (0 <= inactiveCount (stats devs))%Z
  /\ (activeCount (stats devs) + inactiveCount (stats devs) = total (stats devs))%Z
  /\ total (stats devs) = Z.of_nat (length devs).
Proof.
  pose proof (filter_split_length isActive devs) as H.
  unfold stats. cbn [total activeCount inactiveCount]. lia.
Qed.

(** * The bulk query and what is added to it *)

Section Tokens.

Lemma toks_cons_nil (l : list jsstring) : toks ([] :: l) = toks l.
Proof. reflexivity. Qed.

Lemma toks_seps_start (r : jsstring) :
  toks (split_seps_go [] true r) = toks (split_seps_go [] false r).
Proof.
  destruct r as [|c r]; [reflexivity|]. cbn [split_seps_go].
  destruct (is_sep c); reflexivity.
Qed.

Lemma toks_seps_app (x : ascii) (a r cur : jsstring) (b : bool) :
  is_sep x = true -> (b = true -> cur = []) ->
  toks (split_seps_go cur b (a ++ x :: r))
  = toks (split_seps_go cur b a) ++ toks (split_seps_go [] true r).
Proof.
  intros Hx. revert cur b; induction a as [|c a IH]; intros cur b Hb.
  - cbn [app split_seps_go]. rewrite Hx. destruct b.
    + rewrite (Hb eq_refl). reflexivity.
    + unfold toks. cbn [map filter]. destruct (truthy (trim (rev cur))); reflexivity.
  - cbn [app split_seps_go]. destruct (is_sep c).
    + destruct b.
      * apply IH. exact Hb.
      * unfold toks. cbn [map filter].
        fold (toks (split_seps_go [] true (a ++ x :: r))).
        fold (toks (split_seps_go [] true a)).
        rewrite IH by reflexivity.
        destruct (truthy (trim (rev cur))); reflexivity.
    + apply IH. discriminate.
Qed.

(** Two texts put together with a separator between them have the
    tokens of the first followed by the tokens of the second. *)
Lemma rawQueries_app (x : ascii) (a r : jsstring) :
  is_sep x = true -> rawQueries (a ++ x :: r) = rawQueries a ++ rawQueries r.
Proof.
  intros Hx. unfold rawQueries, split_seps.
  change (toks (split_seps_go [] false (a ++ x :: r))
          = toks (split_seps_go [] false a) ++ toks (split_seps_go [] false r)).
  rewrite toks_seps_app by (auto; discriminate). now rewrite toks_seps_start.
Qed.

Lemma rawQueries_append_query (prev added : jsstring) :
  rawQueries (append_query prev added) = rawQueries prev ++ rawQueries added.
Proof.
  unfold append_query. destruct prev as [|c prev]; [reflexivity|].
  cbn [truthy]. unfold nl. rewrite <- app_assoc. cbn [app].
  change (c :: prev ++ ascii_of_nat 10 :: added)
    with ((c :: prev) ++ ascii_of_nat 10 :: added).
  now apply rawQueries_app.
Qed.

Lemma split_seps_go_plain (s cur : jsstring) :
  forallb (fun c => negb (is_sep c)) s = true ->
  split_seps_go cur false s = [rev cur ++ s].
Proof.
  revert cur; induction s as [|c s IH]; intros cur H; cbn [split_seps_go].
  - now rewrite app_nil_r.
  - cbn [forallb] in H. apply andb_true_iff in H as [Hc H].
    apply negb_true_iff in Hc. rewrite Hc, IH by exact H.
    cbn [rev]. now rewrite <- app_assoc.
Qed.

Lemma digit_not_space (c : ascii) : is_digit c = true -> is_space c = false.
Proof. destruct c as [[] [] [] [] [] [] [] []]; vm_compute; congruence. Qed.

Lemma digit_not_sep (c : ascii) : is_digit c = true -> is_sep c = false.
Proof. destruct c as [[] [] [] [] [] [] [] []]; vm_compute; congruence. Qed.

(** A non-empty run of digits is one token, itself. *)
Lemma rawQueries_digits (q : jsstring) :
  q <> [] -> all_digits q -> rawQueries q = [q].
Proof.
  intros Hq Hd. unfold rawQueries, split_seps.
  rewrite split_seps_go_plain.
  - cbn [rev app map filter].
    assert (T : trim q = q).
    { apply trimmed_fix. right. split.
      - destruct q as [|c q]; [congruence|]. inversion Hd; subst.
        now apply digit_not_space.
      - unfold ends_ns. destruct (rev q) as [|c r] eqn:R.
        + apply (f_equal (@length ascii)) in R. rewrite length_rev in R.
          destruct q; [congruence | discriminate].
        + apply digit_not_space.
          assert (Hin : In c q) by (apply in_rev; rewrite R; now left).
          unfold all_digits in Hd. rewrite Forall_forall in Hd. auto. }
    rewrite T. destruct q; [congruence | reflexivity].
  - apply forallb_forall. intros c Hc. apply negb_true_iff, digit_not_sep.
    unfold all_digits in Hd. rewrite Forall_forall in Hd. auto.
Qed.

Lemma rawQueries_join_digits (l : list jsstring) :
  Forall (fun q => q <> [] /\ all_digits q) l -> rawQueries (join nl l) = l.
Proof.
  induction l as [|q l IH]; [reflexivity|]. intros H.
  inversion H as [|? ? [Hq Hd] Hl]; subst.
  destruct l as [|q' l']; [now apply rawQueries_digits|].
  rewrite join_cons by discriminate. unfold nl at 1. cbn [app].
  rewrite rawQueries_app by reflexivity.
  rewrite rawQueries_digits, IH by auto. reflexivity.
Qed.

Lemma scan_fold {File : Type} (devs : list Device) (scans : list (Scan File))
      (news : list jsstring) (failed : list (FailedImage.t File)) :
  exists news' failed',
    fold_left (scan_step devs) scans (news, failed) = (news ++ news', failed ++ failed')
    /\ length news' + length failed' = length scans
    /\ Forall (accepted_imei devs) news'
    /\ Forall (queued_image devs) failed'.
Proof.
  revert news failed; induction scans as [|sc scans IH]; intros news failed.
  - exists [], []. rewrite !app_nil_r. repeat split; constructor.
  - cbn [fold_left]. unfold scan_step at 2.
    destruct (scan_reply sc) as [reply|].
    + set (text := match reply with
                   | Some t => if truthy (trim t) then trim t else lit "FAILED"
                   | None => lit "FAILED"
                   end).
      assert (D : all_digits (filter is_digit text)).
      { apply Forall_forall. intros c Hc. now apply filter_In in Hc. }
      destruct (length (filter is_digit text) =? 15) eqn:L.
      * apply Nat.eqb_eq in L.
        destruct (existsb (fun d => str_eqb (imei d) (filter is_digit text)) devs) eqn:E.
        -- destruct (IH (news ++ [filter is_digit text]) failed)
             as (n' & f' & -> & Hlen & Hn & Hf).
           exists (filter is_digit text :: n'), f'. rewrite <- app_assoc.
           split; [reflexivity|]. split; [cbn; lia|]. split; [|exact Hf].
           constructor; [|exact Hn]. split; [exact L|]. split; [exact D|].
           apply existsb_exists in E as (d & Hd & E). apply str_eqb_eq in E. eauto.
        -- destruct (IH news (failed ++ [FailedImage.mk (scan_id sc) (scan_file sc)
                                          (scan_url sc) (Some (filter is_digit text))]))
             as (n' & f' & -> & Hlen & Hn & Hf).
           eexists n', (_ :: f'). rewrite <- app_assoc.
           split; [reflexivity|]. split; [cbn; lia|]. split; [exact Hn|].
           constructor; [|exact Hf]. unfold queued_image. cbn.
           split; [exact L|]. split; [exact D|]. intros (d & Hd & Hi).
           assert (X : existsb (fun d => str_eqb (imei d) (filter is_digit text)) devs
                       = true); [|congruence].
           apply existsb_exists. exists d. split; [exact Hd | now apply str_eqb_eq].
      * destruct (IH news (failed ++ [FailedImage.mk (scan_id sc) (scan_file sc)
                                        (scan_url sc) None]))
          as (n' & f' & -> & Hlen & Hn & Hf).
        eexists n', (_ :: f'). rewrite <- app_assoc.
        split; [reflexivity|]. split; [cbn; lia|]. split; [exact Hn|].
        constructor; [exact I | exact Hf].
    + destruct (IH news (failed ++ [FailedImage.mk (scan_id sc) (scan_file sc)
                                      (scan_url sc) None]))
        as (n' & f' & -> & Hlen & Hn & Hf).
      eexists n', (_ :: f'). rewrite <- app_assoc.
      split; [reflexivity|]. split; [cbn; lia|]. split; [exact Hn|].
      constructor; [exact I | exact Hf].
Qed.

(** The state after a batch of images, in terms of what the loop
    collected. *)
Lemma handleImageUpload_run {File : Type} (scans : list (Scan File))
      (st : AppState) (ui : UiState File) :
  exists news failed,
    length news + length failed = length scans
    /\ Forall (accepted_imei (devices st)) news
    /\ Forall (queued_image (devices st)) failed
    /\ rawQueries (bulkQuery (fst (handleImageUpload scans (st, ui))))
       = rawQueries (bulkQuery st) ++ news
    /\ devices (fst (handleImageUpload scans (st, ui))) = devices st
    /\ manualFixQueue (snd (handleImageUpload scans (st, ui)))
       = manualFixQueue ui ++ failed.
Proof.
  destruct scans as [|sc scans].
  - exists [], []. cbn. rewrite !app_nil_r. repeat split; constructor.
  - unfold handleImageUpload.
    destruct (scan_fold (devices st) (sc :: scans) [] []) as (news & failed & E & Hlen & Hn & Hf).
    rewrite E. cbn [app]. exists news, failed.
    split; [exact Hlen|]. split; [exact Hn|]. split; [exact Hf|].
    assert (Hne : Forall (fun q => q <> [] /\ all_digits q) news).
    { eapply Forall_impl; [|exact Hn]. intros q (L & D & _). split; [|exact D].
      intros ->. discriminate L. }
    split; [|split].
    + destruct news as [|q news]; cbn [length Nat.ltb Nat.leb fst].
      * now rewrite app_nil_r.
      * cbn [bulkQuery set_bulkQuery]. rewrite rawQueries_append_query.
        now rewrite rawQueries_join_digits.
    + destruct news; reflexivity.
    + destruct failed; cbn; [now rewrite app_nil_r | reflexivity].
Qed.

Lemma filter_digit_spaces (ws : jsstring) :
  forallb is_space ws = true -> filter is_digit ws = [].
Proof.
  induction ws as [|c ws IH]; [reflexivity|]. cbn [forallb filter]. intros H.
  apply andb_true_iff in H as [Hc H].
  destruct (is_digit c) eqn:D; [|now apply IH].
  apply digit_not_space in D. congruence.
Qed.

Lemma filter_digit_trim (t : jsstring) : filter is_digit (trim t) = filter is_digit t.
Proof.
  destruct (trim_sub t) as (a & b & E & Ha & Hb). rewrite E at 2.
  rewrite !filter_app, (filter_digit_spaces a Ha), (filter_digit_spaces b Hb).
  now rewrite app_nil_r.
Qed.

(** The digits the loop keeps are the digits of the reply. *)
Lemma clean_text_digits (reply : option jsstring) :
  filter is_digit (match reply with
                   | Some t => if truthy (trim t) then trim t else lit "FAILED"
                   | None => lit "FAILED"
                   end)
  = match reply with Some t => filter is_digit t | None => [] end.
Proof.
  destruct reply as [t|]; [|reflexivity].
  destruct (truthy (trim t)) eqn:T; [apply filter_digit_trim|].
  rewrite <- (filter_digit_trim t). apply truthy_false in T. now rewrite T.
Qed.

Lemma scan_step_eq {File : Type} (devs : list Device) (sc : Scan File)
      (news : list jsstring) (failed : list (FailedImage.t File)) :
  scan_step devs (news, failed) sc
  = if reply_accepted devs sc then (news ++ [reply_digits sc], failed)
    else (news, failed ++ [queue_entry sc]).
Proof.
  unfold scan_step, reply_accepted, queue_entry, reply_digits.
  destruct (scan_reply sc) as [reply|]; [|reflexivity].
  rewrite clean_text_digits. destruct reply as [t|].
  - destruct (length (filter is_digit t) =? 15); [|reflexivity].
    destruct (existsb (fun d => str_eqb (imei d) (filter is_digit t)) devs);
      reflexivity.
  - reflexivity.
Qed.

Lemma scan_fold_eq {File : Type} (devs : list Device) (scans : list (Scan File))
      (news : list jsstring) (failed : list (FailedImage.t File)) :
  fold_left (scan_step devs) scans (news, failed)
  = (news ++ map reply_digits (filter (reply_accepted devs) scans),
     failed ++ map queue_entry
                   (filter (fun sc => negb (reply_accepted devs sc)) scans)).
Proof.
  revert news failed; induction scans as [|sc scans IH]; intros news failed.
  - cbn. now rewrite !app_nil_r.
  - cbn [fold_left filter]. rewrite scan_step_eq.
    destruct (reply_accepted devs sc); cbn [negb map]; rewrite IH, <- app_assoc;
      reflexivity.
Qed.

Lemma reply_accepted_imei {File : Type} (devs : list Device) (sc : Scan File) :
  reply_accepted devs sc = true -> accepted_imei devs (reply_digits sc).
Proof.
  unfold reply_accepted. intros H. apply andb_true_iff in H as [L E].
  apply Nat.eqb_eq in L. split; [exact L|]. split.
  - unfold reply_digits. destruct (scan_reply sc) as [[t|]|]; try constructor.
    apply Forall_forall. intros c Hc. now apply filter_In in Hc.
  - apply existsb_exists in E as (d & Hd & E). apply str_eqb_eq in E. eauto.
Qed.

Lemma queue_entry_queued {File : Type} (devs : list Device) (sc : Scan File) :
  reply_accepted devs sc = false -> queued_image devs (queue_entry sc).
Proof.
  unfold reply_accepted, queued_image, queue_entry. cbn [FailedImage.suggestedImei].
  destruct (length (reply_digits sc) =? 15) eqn:L; [|intros _; exact I].
  cbn [andb]. intros E. apply Nat.eqb_eq in L. split; [exact L|]. split.
  - unfold reply_digits. destruct (scan_reply sc) as [[t|]|]; try constructor.
    apply Forall_forall. intros c Hc. now apply filter_In in Hc.
  - intros (d & Hd & Hi).
    assert (X : existsb (fun d => str_eqb (imei d) (reply_digits sc)) devs = true);
      [|congruence].
    apply existsb_exists. exists d. split; [exact Hd | now apply str_eqb_eq].
Qed.

Lemma includes_refl (q : jsstring) : includes q q = true.
Proof.
  apply includes_spec. exists 0, [], []. split; [now rewrite app_nil_r | reflexivity].
Qed.

End Tokens.

(** X12.  Accepting a manual fix adds the tokens of the typed IMEI after
    the tokens already in the bulk query, which are kept as they are and
    never run together with the new text; the image leaves the head of the
    queue.  Skipping it removes it from the queue and leaves the query
    alone. *)
Theorem manual_fix_appends_tokens (File : Type) (fixed : jsstring)
        (st : AppState) (ui : UiState File) :
  rawQueries (bulkQuery (fst (handleManualFix fixed (st, ui))))
  = rawQueries (bulkQuery st) ++ rawQueries fixed
  /\ manualFixQueue (snd (handleManualFix fixed (st, ui))) = tl (manualFixQueue ui)
  /\ fst (handleSkipFix (st, ui)) = st
  /\ manualFixQueue (snd (handleSkipFix (st, ui))) = tl (manualFixQueue ui).
Proof.
  cbn [handleManualFix handleSkipFix fst snd set_bulkQuery bulkQuery set_queue
       manualFixQueue].
  split; [apply rawQueries_append_query | auto].
Qed.

(** X13.  A batch of images leaves every image in exactly one place,
    in file order.  The IMEIs added to the bulk query are, in the order of
    the files, the digits of the replies that are fifteen digits and the
    IMEI of a device of the Registry; every other file, in the order of
    the files, is added to the manual-fix queue, with the digits of its
    reply as suggestion when they are fifteen (then the IMEI of no device)
    and without suggestion otherwise.  Added IMEIs and queued images are
    together as many as the files; the tokens already in the query are
    kept and the added IMEIs follow them as tokens of their own. *)
Theorem image_batch_outcome (File : Type) (scans : list (Scan File))
        (st : AppState) (ui : UiState File) :
  let news := map reply_digits (filter (reply_accepted (devices st)) scans) in
  let failed := map queue_entry
                    (filter (fun sc => negb (reply_accepted (devices st) sc)) scans) in
  bulkQuery (fst (handleImageUpload scans (st, ui)))
  = match news with
    | [] => bulkQuery st
    | _ :: _ => append_query (bulkQuery st) (join nl news)
    end
  /\ rawQueries (bulkQuery (fst (handleImageUpload scans (st, ui))))
     = rawQueries (bulkQuery st) ++ news
  /\ manualFixQueue (snd (handleImageUpload scans (st, ui)))
     = manualFixQueue ui ++ failed
  /\ length news + length failed = length scans
  /\ Forall (accepted_imei (devices st)) news
  /\ Forall (queued_image (devices st)) failed.
Proof.
  intros news failed.
  assert (Hn : Forall (accepted_imei (devices st)) news).
  { apply Forall_forall. intros q Hq. apply in_map_iff in Hq as (sc & <- & Hsc).
    apply filter_In in Hsc as [_ Hsc]. now apply reply_accepted_imei. }
  assert (Hf : Forall (queued_image (devices st)) failed).
  { apply Forall_forall. intros fi Hfi. apply in_map_iff in Hfi as (sc & <- & Hsc).
    apply filter_In in Hsc as [_ Hsc]. apply negb_true_iff in Hsc.
    now apply queue_entry_queued. }
  assert (Hne : Forall (fun q => q <> [] /\ all_digits q) news).
  { eapply Forall_impl; [|exact Hn]. intros q (L & D & _). split; [|exact D].
    intros ->. discriminate L. }
  assert (B : bulkQuery (fst (handleImageUpload scans (st, ui)))
              = match news with
                | [] => bulkQuery st
                | _ :: _ => append_query (bulkQuery st) (join nl news)
                end
              /\ manualFixQueue (snd (handleImageUpload scans (st, ui)))
                 = manualFixQueue ui ++ failed).
  { destruct scans as [|sc scans].
    - cbn. now rewrite app_nil_r.
    - unfold handleImageUpload. rewrite scan_fold_eq. cbn [app].
      fold news. fold failed. split.
      + destruct news; reflexivity.
      + destruct failed; cbn; [now rewrite app_nil_r | reflexivity]. }
  destruct B as [B1 B2].
  split; [exact B1|]. split; [|split; [exact B2|split; [|split; [exact Hn | exact Hf]]]].
  - rewrite B1. destruct news as [|q l] eqn:E; [now rewrite app_nil_r|].
    rewrite rawQueries_append_query, rawQueries_join_digits by exact Hne.
    reflexivity.
  - unfold news, failed. rewrite !length_map. apply filter_split_length.
Qed.

(** X14.  An IMEI taken from an image is found by the search that
    follows: after the batch every token that was not in the query before
    is the IMEI of a device of the Registry, and the bulk search lists none
    of them as not found. *)
Theorem image_imeis_are_found (File : Type) (scans : list (Scan File))
        (st : AppState) (ui : UiState File) (q : jsstring) :
  In q (uniqueQueries (bulkQuery (fst (handleImageUpload scans (st, ui))))) ->
  ~ In q (uniqueQueries (bulkQuery st)) ->
  accepted_imei (devices st) q
  /\ ~ In q (notFoundQueries (handleBulkSearch (fst (handleImageUpload scans (st, ui))))).
Proof.
  intros Hq Hold.
  destruct (handleImageUpload_run scans st ui)
    as (news & failed & _ & Hn & _ & Hr & Hd & _).
  unfold uniqueQueries in Hq, Hold.
  apply (proj1 (uniq_In _ _)) in Hq. rewrite Hr in Hq.
  apply in_app_iff in Hq as [Hq | Hq].
  { exfalso. apply Hold. now apply (proj2 (uniq_In _ _)). }
  remember (fst (handleImageUpload scans (st, ui))) as st' eqn:Est. clear Est Hr.
  rewrite Forall_forall in Hn. pose proof (Hn q Hq) as Hacc.
  split; [exact Hacc|]. intros Hnf.
  destruct (trim (bulkQuery st')) as [|c r] eqn:T.
  - destruct (handleBulkSearch_blank st' T) as [_ E]. rewrite E in Hnf. exact Hnf.
  - destruct (handleBulkSearch_run st') as [_ E]; [rewrite T; discriminate|].
    rewrite E in Hnf. apply filter_In in Hnf as [_ Hnf].
    apply negb_true_iff in Hnf.
    destruct Hacc as (_ & _ & d & Hin & Hi).
    assert (X : existsb (matches q) (devices st') = true); [|congruence].
    apply existsb_exists. exists d. rewrite Hd. split; [exact Hin|].
    unfold matches. rewrite Hi, includes_refl. reflexivity.
Qed.

Lemma image_imeis_are_found_witness :
  ~ In (lit "111111111111111")
       (notFoundQueries
          (handleBulkSearch
             (fst (handleImageUpload
                     [mkScan tt (Some (Some (lit "IMEI: 111111111111111")))
                             (lit "r1") (lit "blob:1")]
                     ({| devices := [sample_d1; sample_d3]; bulkQuery := lit "2222";
                         searchResults := None; notFoundQueries := [];
                         icloudAlertDevices := [] |},
                      mkUi dashboard [] false [] false))))).
Proof.
  apply (image_imeis_are_found unit).
  - vm_compute. right. left. reflexivity.
  - vm_compute. intros [H | []]. discriminate H.
Defined.

(** * More on the export and the search *)

Section ExportFacts.

(** The export as the list of its sections. *)
Lemma export_layout_eq (devs : list Device) :
  generateExportText devs = export_layout nl devs.
Proof.
  unfold generateExportText, export_layout, buckets, bucket_titles, bucket_preds.
  cbn [map combine concat fst snd].
  change hdr_icloud with (lit "*ICLOUD*" ++ nl ++ nl).
  change hdr_tmobileNonActive with
    ((lit "locked and non active tmoblie with network phone are like this with the device detetils,"
      ++ nl ++ nl ++ lit "*LOCKED N NON ACTIVE T-MOBILE*") ++ nl ++ nl).
  change hdr_tmobileActive with (lit "*LOCKED N ACTIVE T-MOBILE*" ++ nl ++ nl).
  change hdr_lockedOtherNonActive with
    ((lit "locked and non active other network phone are like this with the device detetils,"
      ++ nl ++ nl ++ lit "*LOCKED N NON ACTIVE*") ++ nl ++ nl).
  change hdr_lockedOtherActive with (lit "*LOCKED N ACTIVE*" ++ nl ++ nl).
  change hdr_unlockedNonActive with
    ((lit "unlocked and non active phone are like this with the device detetils,"
      ++ nl ++ nl ++ lit "UNLOCKED N NON ACTIVE") ++ nl ++ nl).
  change hdr_unlockedActive with
    ((lit "unlocked and active phone like this device detetils,"
      ++ nl ++ nl ++ lit "UNLOCKED N ACTIVE") ++ nl ++ nl).
  rewrite !emit_section. cbn [app]. rewrite app_nil_r.
  rewrite <- !concat_app, <- !map_app, <- !app_assoc.
  apply trim_sections.
  repeat (apply Forall_app; split); apply layout_section_good; reflexivity.
Qed.

Lemma occurs_trans (a b c : jsstring) : occurs a b -> occurs b c -> occurs a c.
Proof.
  rewrite !occurs_split. intros (l1 & l2 & ->) (m1 & m2 & ->).
  exists (m1 ++ l1), (l2 ++ m2). now rewrite <- !app_assoc.
Qed.

Lemma occurs_join (sep x : jsstring) (l : list jsstring) :
  In x l -> occurs x (join sep l).
Proof.
  induction l as [|y l IH]; [intros []|]. intros H.
  destruct l as [|z l'].
  - destruct H as [-> | []]. apply occurs_split. exists [], []. now rewrite app_nil_r.
  - rewrite join_cons by discriminate. destruct H as [-> | H].
    + apply occurs_split. now exists [], (sep ++ join sep (z :: l')).
    + apply occurs_trans with (b := join sep (z :: l')); [now apply IH|].
      apply occurs_split. exists (y ++ sep), []. now rewrite app_nil_r, <- app_assoc.
Qed.

(** A device of the input has its section in the export. *)
Lemma device_section (devs : list Device) (d : Device) :
  In d devs ->
  exists title bucket,
    In d bucket
    /\ In (title ++ nl ++ nl ++ join nl (map layout_entry bucket))
          (concat (map (fun tb => layout_section nl (fst tb) (snd tb))
                       (combine bucket_titles (buckets devs)))).
Proof.
  intros Hd. destruct (bucket_preds_total d) as (i & Hi & Hp).
  exists (nth i bucket_titles []), (nth i (buckets devs) []).
  assert (Hb : In d (nth i (buckets devs) [])).
  { rewrite buckets_nth. apply filter_In. auto. }
  split; [exact Hb|]. apply in_concat.
  exists (layout_section nl (nth i bucket_titles []) (nth i (buckets devs) [])). split.
  - apply in_map_iff. exists (nth i bucket_titles [], nth i (buckets devs) []).
    split; [reflexivity|].
    rewrite <- (combine_nth bucket_titles (buckets devs) i [] []) by reflexivity.
    apply nth_In. rewrite length_combine. cbn. lia.
  - unfold layout_section. destruct (nth i (buckets devs) []); [destruct Hb | now left].
Qed.

Lemma handleBulkSearch_nonblank (st : AppState) :
  trim (bulkQuery st) <> [] ->
  handleBulkSearch st
  = let results := map_values (insert_all [] (all_matches (devices st)
                                                (uniqueQueries (bulkQuery st)))) in
    {| devices := devices st; bulkQuery := bulkQuery st;
       searchResults := Some results;
       notFoundQueries := filter (fun q => negb (existsb (matches q) (devices st)))
                                 (uniqueQueries (bulkQuery st));
       icloudAlertDevices :=
         if 0 <? length (filter icloud_on results)
         then filter icloud_on results else icloudAlertDevices st |}.
Proof.
  intros H. apply truthy_true in H. unfold handleBulkSearch. rewrite H.
  cbn [negb]. rewrite search_fold. reflexivity.
Qed.

Lemma no_match_all (devs : list Device) (l : list jsstring) :
  (forall q, In q l -> existsb (matches q) devs = false) ->
  all_matches devs l = []
  /\ filter (fun q => negb (existsb (matches q) devs)) l = l.
Proof.
  induction l as [|q l IH]; [split; reflexivity|]. intros H.
  destruct IH as [A B]; [intros; apply H; now right|].
  specialize (H q (or_introl eq_refl)). split.
  - unfold all_matches in *. cbn [flat_map]. rewrite A.
    rewrite <- some_match in H.
    destruct (filter (matches q) devs); [reflexivity | discriminate].
  - cbn [filter]. rewrite H. cbn [negb]. now rewrite B.
Qed.

Lemma split_seps_go_nosep (s cur : jsstring) (b : bool) (piece : jsstring) :
  Forall (fun c => is_sep c = false) cur ->
  In piece (split_seps_go cur b s) -> Forall (fun c => is_sep c = false) piece.
Proof.
  revert cur b; induction s as [|x s IH]; intros cur b Hc; cbn [split_seps_go].
  - intros [<- | []]. apply Forall_rev. exact Hc.
  - destruct (is_sep x) eqn:X.
    + destruct b.
      * apply IH. exact Hc.
      * intros [<- | H]; [apply Forall_rev; exact Hc|].
        apply (IH [] true); [constructor | exact H].
    + apply IH. now constructor.
Qed.

End ExportFacts.

(** X15.  The export text is empty exactly when the list of devices is
    empty: a non-empty list always gives a text that begins with the header
    of its first non-empty bucket. *)
Theorem export_empty_iff (devs : list Device) :
  generateExportText devs = [] <-> devs = [].
Proof.
  split; [|intros ->; reflexivity].
  intros E. destruct devs as [|d devs]; [reflexivity|]. exfalso.
  destruct (device_section (d :: devs) d) as (title & bucket & _ & Hin); [now left|].
  rewrite export_layout_eq in E. unfold export_layout in E.
  set (S := concat (map (fun tb => layout_section nl (fst tb) (snd tb))
                        (combine bucket_titles (buckets (d :: devs))))) in *.
  assert (G : Forall (fun s => starts_ns s /\ ends_ns s) S).
  { unfold S, buckets, bucket_titles, bucket_preds. cbn [map combine concat fst snd].
    repeat (apply Forall_app; split); try apply layout_section_good;
      try reflexivity. constructor. }
  destruct S as [|x S']; [destruct Hin|].
  assert (Hs : starts_ns (join (nl ++ nl) (x :: S'))).
  { apply starts_ns_join. inversion G; tauto. }
  rewrite E in Hs. exact Hs.
Qed.

(** X16.  No device is lost by the export: for every device of the
    input, its entry - the cleaned model description, the IMEI and the
    line of [=], each on a line - occurs in the export text. *)
Theorem export_keeps_every_device (devs : list Device) (d : Device) :
  In d devs ->
  occurs (cleanModel (modelDesc d) ++ nl ++ imei d ++ nl ++ separator)
         (generateExportText devs).
Proof.
  intros Hd. destruct (device_section devs d Hd) as (title & bucket & Hb & Hin).
  rewrite export_layout_eq. unfold export_layout.
  apply occurs_trans with (b := title ++ nl ++ nl ++ join nl (map layout_entry bucket));
    [|now apply occurs_join].
  apply occurs_trans with (b := join nl (map layout_entry bucket)).
  - apply occurs_join. apply in_map_iff. exists d. split; [reflexivity | exact Hb].
  - apply occurs_split. exists (title ++ nl ++ nl), [].
    now rewrite app_nil_r, <- !app_assoc.
Qed.

Lemma export_keeps_every_device_witness :
  occurs (lit "IPHONE 12 PRO" ++ nl ++ lit "333333333333333" ++ nl ++ separator)
         (generateExportText [sample_d1; sample_d3]).
Proof.
  apply (export_keeps_every_device [sample_d1; sample_d3] sample_d3).
  right. left. reflexivity.
Defined.



(** X18.  Running the bulk search again on the state it produced changes
    nothing: the results, the not-found list and the alert list are the
    same, for a blank query as for any other. *)
Theorem handleBulkSearch_idempotent (st : AppState) :
  handleBulkSearch (handleBulkSearch st) = handleBulkSearch st.
Proof.
  destruct (trim (bulkQuery st)) as [|c r] eqn:T.
  - unfold handleBulkSearch at 2. rewrite T. cbn [truthy negb].
    unfold handleBulkSearch. cbn [bulkQuery]. rewrite T. reflexivity.
  - assert (N : trim (bulkQuery st) <> []) by (rewrite T; discriminate).
    rewrite (handleBulkSearch_nonblank st N).
    cbv zeta. rewrite handleBulkSearch_nonblank by exact N.
    cbn [devices bulkQuery icloudAlertDevices]. cbv zeta. f_equal.
    destruct (0 <? length _); reflexivity.
Qed.

(** X19.  Every token of a bulk query is clean: it is not empty, it
    holds no newline, comma, space or tab, and it has no white space at
    either end; the tokens are pairwise distinct. *)
Theorem tokens_are_clean (query : jsstring) :
  NoDup (uniqueQueries query)
  /\ forall q, In q (uniqueQueries query) ->
       q <> [] /\ Forall (fun c => is_sep c = false) q /\ trimmed q.
Proof.
  split; [apply uniq_NoDup|]. intros q Hq.
  unfold uniqueQueries in Hq. apply (proj1 (uniq_In _ _)) in Hq.
  apply rawQueries_In in Hq as [Hne (piece & Hp & ->)].
  split; [exact Hne|]. split; [|apply trim_trimmed].
  pose proof (split_seps_go_nosep query [] false piece (Forall_nil _) Hp) as F.
  destruct (trim_sub piece) as (a & b & E & _). rewrite E in F.
  apply Forall_app in F as [_ F]. now apply Forall_app in F as [F _].
Qed.

Lemma tokens_are_clean_witness :
  Forall (fun c => is_sep c = false) (lit "AAA111").
Proof.
  destruct (tokens_are_clean (lit " 1111 ,AAA111" ++ nl)) as [_ H].
  destruct (H (lit "AAA111")) as (_ & F & _).
  - vm_compute. right. left. reflexivity.
  - exact F.
Defined.

(** * The result map, whatever the ids *)

Section ResultMap.

Lemma str_eqb_sym (a b : jsstring) : str_eqb a b = str_eqb b a.
Proof.
  destruct (str_eqb a b) eqn:E.
  - apply str_eqb_eq in E. subst. symmetry. apply str_eqb_refl.
  - symmetry. apply str_eqb_neq. apply str_eqb_neq in E. congruence.
Qed.

Lemma map_set_keys (k : jsstring) (v : Device) (m : DeviceMap) :
  map fst (map_set k v m)
  = if existsb (str_eqb k) (map fst m) then map fst m else map fst m ++ [k].
Proof.
  induction m as [|[k' v'] m IH]; [reflexivity|]. cbn [map_set map fst existsb].
  rewrite (str_eqb_sym k k'). destruct (str_eqb k' k); cbn [orb map fst].
  - reflexivity.
  - rewrite IH. destruct (existsb (str_eqb k) (map fst m)); reflexivity.
Qed.

Lemma map_set_In (k : jsstring) (v : Device) (m : DeviceMap)
      (k' : jsstring) (v' : Device) :
  In (k', v') (map_set k v m) -> In (k', v') m \/ (k' = k /\ v' = v).
Proof.
  induction m as [|[k0 v0] m IH]; cbn [map_set].
  - intros [[= <- <-] | []]. now right.
  - destruct (str_eqb k0 k) eqn:E.
    + apply str_eqb_eq in E. subst k0.
      intros [[= <- <-] | H]; [now right | left; now right].
    + intros [H | H]; [left; now left|].
      destruct (IH H) as [H1 | H1]; [left; now right | now right].
Qed.

Lemma insert_all_inv (l : list Device) (m : DeviceMap) :
  well_keyed m -> NoDup (map fst m) ->
  well_keyed (insert_all m l)
  /\ NoDup (map fst (insert_all m l))
  /\ (forall k v, In (k, v) (insert_all m l) -> In (k, v) m \/ In v l)
  /\ (forall k, In k (map fst m) \/ In k (map id l) -> In k (map fst (insert_all m l))).
Proof.
  revert m; induction l as [|d l IH]; intros m W N.
  - cbn. repeat split; auto. intros k [H | []]. exact H.
  - unfold insert_all. cbn [fold_left].
    fold (insert_all (map_set (id d) d m) l).
    assert (W' : well_keyed (map_set (id d) d m)).
    { intros k v H. apply map_set_In in H as [H | [-> ->]]; [now apply W | reflexivity]. }
    assert (N' : NoDup (map fst (map_set (id d) d m))).
    { rewrite map_set_keys. destruct (existsb (str_eqb (id d)) (map fst m)) eqn:E;
        [exact N|].
      apply NoDup_app; [exact N | repeat constructor; intros [] |].
      intros k Hk [<- | []].
      assert (X : existsb (str_eqb (id d)) (map fst m) = true); [|congruence].
      apply existsb_exists. exists (id d). split; [exact Hk | apply str_eqb_refl]. }
    destruct (IH _ W' N') as (W2 & N2 & V2 & K2).
    split; [exact W2|]. split; [exact N2|]. split.
    + intros k v H. apply V2 in H as [H | H]; [|right; now right].
      apply map_set_In in H as [H | [-> ->]]; [now left | right; now left].
    + intros k H. apply K2. rewrite map_set_keys.
      destruct (existsb (str_eqb (id d)) (map fst m)) eqn:E.
      * destruct H as [H | [<- | H]]; [now left | | now right].
        left. apply existsb_exists in E as (x & Hx & E).
        apply str_eqb_eq in E. now subst x.
      * rewrite in_app_iff. cbn [In].
        destruct H as [H | [<- | H]]; [left; now left | left; right; now left | now right].
Qed.

Lemma well_keyed_ids (m : DeviceMap) : well_keyed m -> map id (map snd m) = map fst m.
Proof.
  induction m as [|[k v] m IH]; [reflexivity|]. intros W. cbn [map fst snd].
  rewrite IH by (intros k' v' H; apply W; now right).
  now rewrite (W k v) by now left.
Qed.

Lemma parse_loop_length (chunks : list jsstring) (i : nat) :
  length (parse_loop i chunks) <= length chunks.
Proof.
  revert i; induction chunks as [|c chunks IH]; intros i; cbn [parse_loop length];
    [lia|].
  specialize (IH (S i)). destruct (parse_chunk i c); cbn [length]; lia.
Qed.

Lemma parse_loop_indices (chunks : list jsstring) (i : nat) :
  exists ks,
    StronglySorted lt ks
    /\ Forall2 (fun k d => i <= k /\ exists chunk, nth_error chunks (k - i) = Some chunk
                                                  /\ parse_chunk k chunk = Some d)
               ks (parse_loop i chunks).
Proof.
  revert i; induction chunks as [|c chunks IH]; intros i; cbn [parse_loop].
  - exists []. split; constructor.
  - destruct (IH (S i)) as (ks & Hs & Hf).
    assert (Hf' : Forall2 (fun k d => i <= k /\ exists chunk,
                             nth_error (c :: chunks) (k - i) = Some chunk
                             /\ parse_chunk k chunk = Some d)
                          ks (parse_loop (S i) chunks)).
    { eapply Forall2_impl; [|exact Hf]. cbn beta.
      intros k d (Hk & chunk & Hn & Hp). split; [lia|]. exists chunk.
      split; [|exact Hp]. replace (k - i) with (S (k - S i)) by lia. exact Hn. }
    destruct (parse_chunk i c) as [d|] eqn:E.
    + exists (i :: ks). split.
      * constructor; [exact Hs|]. clear -Hf.
        induction Hf as [|k d ks ds (Hk & _) _ IHf]; constructor; [lia | exact IHf].
      * constructor; [|exact Hf']. split; [lia|]. exists c.
        rewrite Nat.sub_diag. split; [reflexivity | exact E].
    + exists ks. split; [exact Hs | exact Hf'].
Qed.

Lemma lower_lower_char (c : ascii) : lower_char (lower_char c) = lower_char c.
Proof. destruct c as [[] [] [] [] [] [] [] []]; vm_compute; reflexivity. Qed.

Lemma lower_char_word (c : ascii) : is_word (lower_char c) = is_word c.
Proof. destruct c as [[] [] [] [] [] [] [] []]; vm_compute; reflexivity. Qed.

Lemma lower_char_digit (c d : ascii) :
  is_digit d = true -> Ascii.eqb (lower_char c) d = Ascii.eqb c d.
Proof.
  destruct c as [[] [] [] [] [] [] [] []];
    destruct d as [[] [] [] [] [] [] [] []]; vm_compute; congruence.
Qed.

Lemma lower_char_is_digit (c : ascii) : is_digit (lower_char c) = is_digit c.
Proof. destruct c as [[] [] [] [] [] [] [] []]; vm_compute; reflexivity. Qed.

(** The year test does not look at the case of letters. *)
Lemma year_scan_map (f : ascii -> ascii) (s : jsstring) (prev : bool) :
  (forall c, is_word (f c) = is_word c) ->
  (forall c, is_digit (f c) = is_digit c) ->
  (forall c d, is_digit d = true -> Ascii.eqb (f c) d = Ascii.eqb c d) ->
  year_scan prev (map f s) = year_scan prev s.
Proof.
  intros Hw Hd He. revert prev; induction s as [|c s IH]; intros prev; [reflexivity|].
  cbn [map year_scan]. rewrite Hw, IH. f_equal. f_equal.
  destruct s as [|b [|x [|y rest]]]; try reflexivity.
  cbn [map year_here]. rewrite !He, !Hd by reflexivity.
  destruct rest as [|e rest]; [reflexivity|]. cbn [map]. now rewrite Hw.
Qed.

Lemma truthy_map (f : ascii -> ascii) (s : jsstring) : truthy (map f s) = truthy s.
Proof. destruct s; reflexivity. Qed.

Lemma replaceAll_go_absent (pat rep s : jsstring) :
  ~ occurs pat s -> replaceAll_go pat rep 0 s = s.
Proof.
  induction s as [|c s IH]; [reflexivity|]. intros H. cbn [replaceAll_go].
  destruct (startsWith pat (c :: s)) eqn:E.
  - exfalso. apply H. exists 0. now apply occurs_at_0.
  - rewrite IH; [reflexivity|]. intros (m & Hm). apply H. exists (S m).
    now apply occurs_at_S.
Qed.

End ResultMap.

(** X20.  Whatever the ids of the Registry, the result list of a
    non-blank search never holds two devices with the same id and never
    holds a device that is not in the Registry or that no token matches;
    every device matched by a token has its id in the list. *)
Theorem search_results_sound (st : AppState) :
  trim (bulkQuery st) <> [] ->
  exists results,
    searchResults (handleBulkSearch st) = Some results
    /\ NoDup (map id results)
    /\ (forall d, In d results ->
          In d (devices st)
          /\ exists q, In q (uniqueQueries (bulkQuery st)) /\ matches_spec q d)
    /\ (forall d q, In d (devices st) -> In q (uniqueQueries (bulkQuery st)) ->
                    matches_spec q d -> In (id d) (map id results)).
Proof.
  intros T. destruct (handleBulkSearch_run st T) as [R _].
  set (tokens := uniqueQueries (bulkQuery st)) in *.
  destruct (insert_all_inv (all_matches (devices st) tokens) [])
    as (W & N & V & K); [intros k v [] | constructor |].
  assert (Hne : forall q, In q tokens -> q <> []).
  { intros q Hq. apply (proj1 (uniq_In _ _)) in Hq. apply rawQueries_In in Hq. tauto. }
  eexists. split; [exact R|]. unfold map_values. rewrite (well_keyed_ids _ W).
  split; [exact N|]. split.
  - intros d Hd. apply in_map_iff in Hd as ([k v] & <- & H). cbn [snd].
    apply V in H as [[] | H]. apply all_matches_In in H as [Hd (q & Hq & Hm)].
    split; [exact Hd|]. exists q. split; [exact Hq|].
    now apply (matches_iff q v (Hne q Hq)).
  - intros d q Hd Hq Hm. apply K. right. apply in_map. apply all_matches_In.
    split; [exact Hd|]. exists q. split; [exact Hq|].
    now apply (matches_iff q d (Hne q Hq)).
Qed.

Lemma search_results_sound_witness :
  exists results,
    searchResults (handleBulkSearch sample_search) = Some results
    /\ NoDup (map id results).
Proof.
  destruct (search_results_sound sample_search) as (results & H1 & H2 & _).
  - vm_compute. discriminate.
  - exists results. auto.
Defined.

(** X21.  The devices come out in document order, at most one per
    segment after the first: the extracted list is built from segments of
    strictly increasing index, so it is never longer than the number of
    markers in the document. *)
Theorem parse_document_order (html : jsstring) :
  length (parseSickwHtml html) <= length (split imei_marker html) - 1
  /\ exists ks,
       StronglySorted lt ks
       /\ Forall2 (fun k d => 1 <= k /\ exists chunk,
                       nth_error (split imei_marker html) k = Some chunk
                       /\ parse_chunk k chunk = Some d)
                  ks (parseSickwHtml html).
Proof.
  unfold parseSickwHtml. split.
  - pose proof (parse_loop_length (tl (split imei_marker html)) 1) as H.
    destruct (split imei_marker html); cbn [tl length] in *; lia.
  - destruct (parse_loop_indices (tl (split imei_marker html)) 1) as (ks & Hs & Hf).
    exists ks. split; [exact Hs|]. eapply Forall2_impl; [|exact Hf]. cbn beta.
    intros k d (Hk & chunk & Hn & Hp). split; [exact Hk|]. exists chunk.
    split; [|exact Hp]. rewrite nth_error_tl in Hn.
    replace (S (k - 1)) with k in Hn by lia. exact Hn.
Qed.



(** X23.  The model name in the export is always trimmed, and a name
    that does not hold "-USA" is only trimmed. *)
Theorem cleanModel_plain (name : jsstring) :
  trimmed (cleanModel name)
  /\ (~ occurs (lit "-USA") name -> cleanModel name = trim name).
Proof.
  unfold cleanModel. split; [apply trim_trimmed|].
  intros H. unfold replaceAll. now rewrite replaceAll_go_absent.
Qed.

Lemma cleanModel_plain_witness :
  cleanModel (lit " IPHONE 12 PRO ") = lit "IPHONE 12 PRO".
Proof.
  destruct (cleanModel_plain (lit " IPHONE 12 PRO ")) as [_ H].
  rewrite H; [reflexivity|].
  rewrite <- includes_spec. vm_compute. discriminate.
Defined.
